(** * k-means over two-dimensional points: a model of [kmeans.py]

    The development follows the Python module top to bottom: the class
    [Point] (construction with rounding, equality, hashing, distance and
    the two bounding-range static methods), then the four local functions
    of [kmeans] and its driving loop.

    Conventions of the model.

    - Floats are modelled twice.  In the first model a float is its real
      value, a rational of [Q], and arithmetic is exact; the one feature
      of floats kept besides the value is the sign of zero, because
      [round] produces [-0.0] from a small negative number, [==] does not
      see the sign and [str.format] does.  This is the arithmetic of the
      properties that do not depend on how floats round: which points are
      grouped together, what the loops keep invariant, which exceptions
      the control flow can reach.
    - Where the rounding of floats decides the outcome (the order of two
      distances, the tenth that a mean rounds to, the overflow of a
      square), the functions are modelled once more in the module
      [Binary64], over the IEEE 754 binary64 numbers of the library.
    - A coordinate stored in a [Point] went through [round(_, 1)]: it is
      [-0.0] or the float nearest to a whole number of tenths, and the
      model keeps that number, a [Z].
    - A dictionary iterates in insertion order, and a key that is already
      present keeps its place and its key object when it is assigned
      again.  Dictionaries keyed by points are association lists; two
      keys are the same when their hashes are equal and [__eq__] holds.
    - [hash] on strings, the iteration order of a [set] and the rounding
      of the builtin [sum] are not fixed by the program; they are
      parameters.
    - [random.uniform] reads its unit draw from an explicit list.
    - [print] calls are left out. *)

From Stdlib Require Import ZArith QArith Qround Qabs Reals Psatz.
From Stdlib Require Import SpecFloat.
From stdpp Require Import gmap strings list pretty.

Local Open Scope Z_scope.

(** ** Floats *)

(** A finite float: its real value, or negative zero. *)
Inductive float : Type :=
  | NegZ : float
  | Fin (q : Q) : float.

(** A float that [round(_, 1)] returned: negative zero, or [t] tenths. *)
Inductive coord : Type :=
  | NegZero : coord
  | Tenths (t : Z) : coord.

Definition tenths (c : coord) : Z :=
  match c with
  | NegZero => 0
  | Tenths t => t
  end.

Definition to_float (c : coord) : float :=
  match c with
  | NegZero => NegZ
  | Tenths t => Fin (inject_Z t / 10)
  end.

(** The real value of a float. *)
Definition value (f : float) : Q :=
  match f with
  | NegZ => 0%Q
  | Fin q => q
  end.

(** [x == y] on floats compares the values. *)
Definition coord_eqb (a b : coord) : bool := tenths a =? tenths b.

(** Nearest integer, ties to the even one. *)
Definition round_half_even (q : Q) : Z :=
  let f := Qfloor q in
  match (q - inject_Z f ?= 1 # 2)%Q with
  | Lt => f
  | Gt => f + 1
  | Eq => if Z.even f then f else f + 1
  end.

(** [round(v, 1)]: the nearest tenth; the sign of the argument is kept
    when the result is zero. *)
Definition round1 (v : float) : coord :=
  match v with
  | NegZ => NegZero
  | Fin q =>
      let t := round_half_even (q * 10) in
      if (t =? 0) && negb (Qle_bool 0 q) then NegZero else Tenths t
  end.

(** ** class Point *)

Record Point : Type := mkPoint { x : coord; y : coord }.

(** [Point.__init__] *)
Definition Point_init (in_x in_y : float) : Point :=
  {| x := round1 in_x; y := round1 in_y |}.

(** [Point.__eq__] and [Point.__ne__] *)
Definition Point_eq (self in_other : Point) : bool :=
  coord_eqb (x self) (x in_other) && coord_eqb (y self) (y in_other).

Definition Point_ne (self in_other : Point) : bool :=
  negb (Point_eq self in_other).

(** [str.format] of a coordinate, as [repr] prints a float with one
    decimal: sign, integer part, a dot, one digit. *)
Definition format_coord (c : coord) : string :=
  match c with
  | NegZero => "-0.0"
  | Tenths t =>
      (if t <? 0 then "-" else "") +:+
      pretty (Z.abs t / 10) +:+ "." +:+ pretty (Z.abs t mod 10)
  end.

(** ["{},{}".format(self.x, self.y)] *)
Definition format_xy (p : Point) : string :=
  format_coord (x p) +:+ "," +:+ format_coord (y p).

(** [Point.__hash__], over the string hash [hash] of the interpreter. *)
Definition Point_hash (hash : string -> Z) (self : Point) : Z :=
  hash (format_xy self).

(** The square of [Point.distance], in hundredths: the argument of
    [math.sqrt] in the source, scaled by 100. *)
Definition distance2 (self in_other : Point) : Z :=
  (tenths (x self) - tenths (x in_other)) ^ 2
  + (tenths (y self) - tenths (y in_other)) ^ 2.

(** [Point.distance] *)
Definition distance (self in_other : Point) : R :=
  (sqrt (IZR (distance2 self in_other)) / 10)%R.

(** [Point.x_min_max]; the result is in tenths. *)
Definition x_min_max (in_points : list Point) : Z * Z :=
  fold_left
    (fun '(x_min, x_max) point =>
       let x_min := if x_min >? tenths (x point) then tenths (x point) else x_min in
       let x_max := if x_max <? tenths (x point) then tenths (x point) else x_max in
       (x_min, x_max))
    in_points (0, 0).

(** [Point.y_min_max]; the result is in tenths. *)
Definition y_min_max (in_points : list Point) : Z * Z :=
  fold_left
    (fun '(y_min, y_max) point =>
       let y_min := if y_min >? tenths (y point) then tenths (y point) else y_min in
       let y_max := if y_max <? tenths (y point) then tenths (y point) else y_max in
       (y_min, y_max))
    in_points (0, 0).

(** ** Outcomes of a call *)

(** The exceptions the module can raise: [min] of an empty dictionary, a
    division by [len] of an empty list, and [pow] of a float whose square
    is too large for a float. *)
Inductive exn : Type :=
  | ValueError : exn
  | ZeroDivisionError : exn
  | OverflowError : exn.

(** A call returns, raises, or is still running when the model's supply
    (random draws for the initialisation, iterations for the main loop)
    is used up; the last outcome also stands for a run that the model
    does not follow further. *)
Inductive res (A : Type) : Type :=
  | Return (a : A) : res A
  | Raise (e : exn) : res A
  | OutOfFuel : res A.

Arguments Return {A} a.
Arguments Raise {A} e.
Arguments OutOfFuel {A}.

#[global] Instance res_ret : MRet res := fun A a => Return a.

#[global] Instance res_bind : MBind res := fun A B f m =>
  match m with
  | Return a => f a
  | Raise e => Raise e
  | OutOfFuel => OutOfFuel
  end.

(** A loop whose body may raise. *)
Fixpoint foldM {A B : Type} (f : B -> A -> res B) (l : list A) (acc : B) : res B :=
  match l with
  | [] => Return acc
  | a :: l' => acc' ← f acc a; foldM f l' acc'
  end.

(** [random.uniform(a, b)] with unit draw [u]; [a] and [b] in tenths. *)
Definition uniform (a b : Z) (u : Q) : float :=
  Fin (inject_Z a / 10 + (inject_Z b / 10 - inject_Z a / 10) * u).

(** [sum] of a list of floats, from the left, starting at 0. *)
Definition Qsum (l : list Q) : Q := fold_left Qplus l 0%Q.

Module Dict.
Section Dict.

(** Whether two keys are the same key of a dictionary. *)
Variable same : Point -> Point -> bool.
Context {V : Type}.

(** [d.get(k)] *)
Fixpoint get (d : list (Point * V)) (k : Point) : option V :=
  match d with
  | [] => None
  | (k', v) :: d' => if same k' k then Some v else get d' k
  end.

(** [d[k] = v] *)
Fixpoint set (d : list (Point * V)) (k : Point) (v : V) : list (Point * V) :=
  match d with
  | [] => [(k, v)]
  | (k', v') :: d' =>
      if same k' k then (k', v) :: d' else (k', v') :: set d' k v
  end.

Definition keys (d : list (Point * V)) : list Point := map fst d.
Definition values (d : list (Point * V)) : list V := map snd d.

End Dict.
End Dict.

(** [min(dist, key=dist.get)]: the first key whose value is the least;
    [ValueError] on an empty dictionary.  The keys of a dictionary are
    pairwise different keys, so [dist.get(k)] is the value stored with
    [k]. *)
Definition py_min (dist : list (Point * Z)) : res Point :=
  match dist with
  | [] => Raise ValueError
  | kv :: rest =>
      Return (fst (fold_left
                     (fun best kv' => if snd kv' <? snd best then kv' else best)
                     rest kv))
  end.

Section Kmeans.

(** The string hash of the running interpreter. *)
Variable hash : string -> Z.

(** Two points are the same dictionary key or set member when their
    hashes are equal and [__eq__] holds. *)
Definition same_key (a b : Point) : bool :=
  (Point_hash hash a =? Point_hash hash b) && Point_eq a b.

(** Adding a member to a set: a member already present stays. *)
Definition set_add (s : list Point) (p : Point) : list Point :=
  if existsb (fun q => same_key q p) s then s else s ++ [p].

(** The members of [set(l)], in the order of their first insertion. *)
Definition set_of (l : list Point) : list Point := fold_left set_add l [].

(** The order in which the interpreter iterates over [set(l)]. *)
Variable set_iter : list Point -> list Point.

(** [_choose_barycenters]: the loop, reading two unit draws a round. *)
Fixpoint choose_loop (x_min x_max y_min y_max : Z) (_in_k : Z)
    (draws : list Q) (selected : gmap Z (gset Z)) (_result : list Point)
    : res (list Point) :=
  match draws with
  | u :: v :: draws' =>
      let x := round1 (uniform x_min x_max u) in
      let y := round1 (uniform y_min y_max v) in
      if bool_decide (tenths y ∈ default ∅ (selected !! tenths x)) then
        choose_loop x_min x_max y_min y_max _in_k draws' selected _result
      else
        let selected :=
          match selected !! tenths x with
          | None => <[tenths x := ∅]> selected
          | Some _ => selected
          end in
        let selected := alter (fun ys => {[tenths y]} ∪ ys) (tenths x) selected in
        let _result := _result ++ [Point_init (to_float x) (to_float y)] in
        if Z.of_nat (length _result) =? _in_k then Return _result
        else choose_loop x_min x_max y_min y_max _in_k draws' selected _result
  | _ => OutOfFuel
  end.

Definition _choose_barycenters (_in_points : list Point) (_in_k : Z)
    (draws : list Q) : res (list Point) :=
  let '(x_min, x_max) := x_min_max _in_points in
  let '(y_min, y_max) := y_min_max _in_points in
  choose_loop x_min x_max y_min y_max _in_k draws ∅ [].

(** The inner dictionary [distances[_point]], filled by the inner loop.
    The stored value is the squared distance: in exact arithmetic
    [math.sqrt] is increasing, so [min] orders the keys the same way. *)
Definition distances_of (_point : Point) (_in_barycenters : list Point)
    : list (Point * Z) :=
  fold_left
    (fun row _barycenter =>
       Dict.set same_key row _barycenter (distance2 _point _barycenter))
    _in_barycenters [].

Definition _assign_barycenters (_in_points _in_barycenters : list Point)
    : res (list (Point * Point)) :=
  let distances :=
    fold_left
      (fun distances _point =>
         Dict.set same_key distances _point (distances_of _point _in_barycenters))
      _in_points [] in
  foldM
    (fun result '(_point, dist) =>
       b ← py_min dist; Return (Dict.set same_key result _point b))
    distances [].

(** The dictionary comprehension that groups the points by barycenter.
    [_point_barycenter[k]] is read for keys [k] of the dictionary only. *)
Definition group (_point_barycenter : list (Point * Point))
    : list (Point * list Point) :=
  fold_left
    (fun acc n =>
       Dict.set same_key acc n
         (List.filter
            (fun k =>
               match Dict.get same_key _point_barycenter k with
               | Some b => Point_eq b n
               | None => false
               end)
            (Dict.keys _point_barycenter)))
    (set_iter (Dict.values _point_barycenter)) [].

Definition _find_barycenter (_in_points : list Point) : res Point :=
  let n := Z.of_nat (length _in_points) in
  if n =? 0 then Raise ZeroDivisionError
  else
    Return (Point_init
              (Fin (Qsum (map (fun p => value (to_float (x p))) _in_points) / inject_Z n))
              (Fin (Qsum (map (fun p => value (to_float (y p))) _in_points) / inject_Z n))).

Definition _find_barycenters (_in_barycenter_points : list (Point * list Point))
    : res (bool * list (Point * list Point)) :=
  foldM
    (fun '(_changed, result) '(b, pts) =>
       new_b ← _find_barycenter pts;
       let _changed := if Point_ne b new_b then true else _changed in
       Return (_changed, Dict.set same_key result new_b pts))
    _in_barycenter_points (false, []).

(** The [while True] loop of [kmeans], at most [fuel] rounds. *)
Fixpoint kmeans_loop (fuel : nat) (in_points barycenters : list Point)
    : res (list (Point * list Point)) :=
  match fuel with
  | O => OutOfFuel
  | S fuel' =>
      _point_barycenter ← _assign_barycenters in_points barycenters;
      let _barycenter_points := group _point_barycenter in
      '(changed, _barycenter_points) ← _find_barycenters _barycenter_points;
      if negb changed then Return _barycenter_points
      else kmeans_loop fuel' in_points (Dict.keys _barycenter_points)
  end.

Definition kmeans (draws : list Q) (fuel : nat) (in_points : list Point) (in_k : Z)
    : res (list (Point * list Point)) :=
  barycenters ← _choose_barycenters in_points in_k draws;
  kmeans_loop fuel in_points barycenters.

End Kmeans.

(** A string hash to run the model with: the length of the string. *)
Definition len_hash (s : string) : Z := Z.of_nat (String.length s).

(** ** Vocabulary of the properties *)

(** A list whose elements are pairwise unrelated by [eqb]. *)
Fixpoint distinct (eqb : Point -> Point -> bool) (l : list Point) : Prop :=
  match l with
  | [] => True
  | a :: l' => (forall b, In b l' -> eqb a b = false) /\ distinct eqb l'
  end.

(** [c] is the first element of [B] at which [g] is least. *)
Definition first_min (g : Point -> Z) (B : list Point) (c : Point) : Prop :=
  exists i : nat,
    B !! i = Some c
    /\ (forall b, In b B -> g c <= g b)
    /\ (forall j b, (j < i)%nat -> B !! j = Some b -> g c < g b).

(** One comparison of [min], and what holds of its candidate after the
    items [seen]. *)
Definition min_step (best kv' : Point * Z) : Point * Z :=
  if snd kv' <? snd best then kv' else best.

Definition min_inv (seen : list (Point * Z)) (best : Point * Z) : Prop :=
  exists i : nat,
    seen !! i = Some best
    /\ (forall kv, In kv seen -> snd best <= snd kv)
    /\ (forall j kv, (j < i)%nat -> seen !! j = Some kv -> snd best < snd kv).

(** The barycenter that [min] selects for a point (the origin stands
    for the missing result when there is no barycenter). *)
Definition nearest (hash : string -> Z) (bs : list Point) (p : Point) : Point :=
  match py_min (distances_of hash p bs) with
  | Return c => c
  | _ => mkPoint (Tenths 0) (Tenths 0)
  end.

(** The body of the second loop of [_assign_barycenters]. *)
Definition assign_step (hash : string -> Z) (result : list (Point * Point))
    (item : Point * list (Point * Z)) : res (list (Point * Point)) :=
  let '(_point, dist) := item in
  b ← py_min dist; Return (Dict.set (same_key hash) result _point b).

(** The member list of barycenter [n] in the comprehension. *)
Definition members_of (hash : string -> Z) (_point_barycenter : list (Point * Point))
    (n : Point) : list Point :=
  List.filter
    (fun k =>
       match Dict.get (same_key hash) _point_barycenter k with
       | Some b => Point_eq b n
       | None => false
       end)
    (Dict.keys _point_barycenter).

(** The point [_find_barycenter] returns for a non-empty list. *)
Definition barycenter_of (pts : list Point) : Point :=
  Point_init
    (Fin (Qsum (map (fun p => value (to_float (x p))) pts) / inject_Z (Z.of_nat (length pts))))
    (Fin (Qsum (map (fun p => value (to_float (y p))) pts) / inject_Z (Z.of_nat (length pts)))).

(** The body of the loop of [_find_barycenters]. *)
Definition recompute_step (hash : string -> Z)
    : bool * list (Point * list Point) -> Point * list Point ->
      res (bool * list (Point * list Point)) :=
  fun '(_changed, result) '(b, pts) =>
    new_b ← _find_barycenter pts;
    let _changed := if Point_ne b new_b then true else _changed in
    Return (_changed, Dict.set (same_key hash) result new_b pts).

(** Whether some group's barycenter differs from the recomputed one. *)
Definition some_changed (bp : list (Point * list Point)) : bool :=
  existsb (fun item => Point_ne (fst item) (barycenter_of (snd item))) bp.

(** The dictionary of the recomputed barycenters. *)
Definition recomputed (hash : string -> Z) (bp result : list (Point * list Point))
    : list (Point * list Point) :=
  fold_left
    (fun r item => Dict.set (same_key hash) r (barycenter_of (snd item)) (snd item))
    bp result.

(** The sum of a list of reals. *)
Definition Qtotal (l : list Q) : Q := fold_right Qplus 0%Q l.

(** The arithmetic mean of a list of reals. *)
Definition arithmetic_mean (l : list Q) : Q :=
  (Qtotal l / inject_Z (Z.of_nat (length l)))%Q.

(** The coordinate [c] is a tenth nearest to the real [q]. *)
Definition rounded_to_tenth (q : Q) (c : coord) : Prop :=
  (Qabs (q * 10 - inject_Z (tenths c)) <= 1 # 2)%Q.

(** [c] is the mean of the points [pts], coordinate by coordinate, each
    rounded to one decimal. *)
Definition is_rounded_mean (c : Point) (pts : list Point) : Prop :=
  rounded_to_tenth (arithmetic_mean (map (fun p => value (to_float (x p))) pts)) (x c)
  /\ rounded_to_tenth (arithmetic_mean (map (fun p => value (to_float (y p))) pts)) (y c).

(** The two updates of [selected] when a pair is accepted. *)
Definition select (tx ty : Z) (selected : gmap Z (gset Z)) : gmap Z (gset Z) :=
  alter (fun ys => {[ty]} ∪ ys) tx
    match selected !! tx with
    | None => <[tx := ∅]> selected
    | Some _ => selected
    end.

(** What the loop of [_choose_barycenters] keeps true of [selected] and
    [_result]. *)
Definition choose_inv (x_min x_max y_min y_max : Z)
    (selected : gmap Z (gset Z)) (_result : list Point) : Prop :=
  distinct Point_eq _result
  /\ (forall c, In c _result ->
        x_min <= tenths (x c) <= x_max /\ y_min <= tenths (y c) <= y_max)
  /\ (forall c, In c _result ->
        tenths (y c) ∈ default ∅ (selected !! tenths (x c))).

Definition choose_post (x_min x_max y_min y_max _in_k : Z) (r : list Point) : Prop :=
  Z.of_nat (length r) = _in_k
  /\ distinct Point_eq r
  /\ forall c, In c r ->
       x_min <= tenths (x c) <= x_max /\ y_min <= tenths (y c) <= y_max.

(** A run: four points, two barycenters, four unit draws. *)
Definition demo_points : list Point :=
  [Point_init (Fin 0) (Fin 0); Point_init (Fin 0) (Fin 1);
   Point_init (Fin 10) (Fin 10); Point_init (Fin 10) (Fin 11)].

Definition demo_draws : list Q := [0.25; 0.25; 0.75; 0.5]%Q.

Definition demo_partition : list (Point * list Point) :=
  [(Point_init (Fin 0) (Fin 0.5),
    [Point_init (Fin 0) (Fin 0); Point_init (Fin 0) (Fin 1)]);
   (Point_init (Fin 10) (Fin 10.5),
    [Point_init (Fin 10) (Fin 10); Point_init (Fin 10) (Fin 11)])].

(** ** The rest of the class [Point] *)



(** The loop shared by [x_min_max] and [y_min_max], over the coordinate
    [proj] of the points. *)
Definition min_max_by (proj : Point -> Z) (in_points : list Point) : Z * Z :=
  fold_left
    (fun '(c_min, c_max) point =>
       let c_min := if c_min >? proj point then proj point else c_min in
       let c_max := if c_max <? proj point then proj point else c_max in
       (c_min, c_max))
    in_points (0, 0).


(** The sum of a list of integers. *)
Definition Ztotal (l : list Z) : Z := fold_right Z.add 0 l.

(** ** The arithmetic of the interpreter *)

(** A Python float is a binary64 number of IEEE 754, and every operation
    on floats rounds its exact result to the nearest float, ties to the
    even mantissa.  Where a property depends on that rounding, the
    functions of the module are modelled once more over [spec_float], the
    library's binary64 numbers ([prec] and [emax] below), with the signed
    zeros and the infinities.

    - A coordinate of a [Point] is the float that [round(_, 1)] returned:
      the float nearest to a whole number of tenths.
    - [pow(d, 2)] is the correctly rounded square of [d]; it raises
      [OverflowError] when [d] is finite and its square is not.
    - The builtin [sum] adds floats from the left, and in later versions
      of the interpreter compensates the rounding errors of the
      additions; it is a parameter.
    - A mean that is not finite is left as it is by [round] and is no
      coordinate of the model, which stops there ([OutOfFuel]). *)
Module Binary64.

Definition prec : Z := 53.
Definition emax : Z := 1024.

Definition float64 : Type := spec_float.

Definition fadd : float64 -> float64 -> float64 := SFadd prec emax.
Definition fsub : float64 -> float64 -> float64 := SFsub prec emax.
Definition fmul : float64 -> float64 -> float64 := SFmul prec emax.
Definition fdiv : float64 -> float64 -> float64 := SFdiv prec emax.
Definition fsqrt : float64 -> float64 := SFsqrt prec emax.

(** [a < b] and [a <= b] on floats. *)
Definition fltb : float64 -> float64 -> bool := SFltb.
Definition fleb : float64 -> float64 -> bool := SFleb.

Definition is_finite (f : float64) : bool :=
  match f with
  | S754_zero _ | S754_finite _ _ _ => true
  | _ => false
  end.

Definition is_infinite (f : float64) : bool :=
  match f with
  | S754_infinity _ => true
  | _ => false
  end.

Definition is_nan (f : float64) : bool :=
  match f with
  | S754_nan => true
  | _ => false
  end.

(** An integer, as an operand of a division (exact, whatever its size). *)
Definition integer (z : Z) : spec_float :=
  match z with
  | Z0 => S754_zero false
  | Zpos m => S754_finite false m 0
  | Zneg m => S754_finite true m 0
  end.

(** [float(n)] for an integer [n]. *)
Definition of_int (n : Z) : float64 := binary_normalize prec emax n 0 false.

(** The float that a coordinate is: [-0.0], or the float nearest to [t]
    tenths. *)
Definition of_coord (c : coord) : float64 :=
  match c with
  | NegZero => S754_zero true
  | Tenths t => fdiv (integer t) (integer 10)
  end.

(** The real value of a finite float and the sign of its zero. *)
Definition to_float (v : float64) : option float :=
  match v with
  | S754_zero false => Some (Fin 0)
  | S754_zero true => Some NegZ
  | S754_finite s m e =>
      Some (Fin ((if s then - inject_Z (Zpos m) else inject_Z (Zpos m)) * 2 ^ e))
  | _ => None
  end.

(** [pow(d, 2)] *)
Definition pow2 (d : float64) : res float64 :=
  let s := fmul d d in
  if is_finite d && is_infinite s then Raise OverflowError else Return s.

(** [Point.distance] *)
Definition distance (self in_other : Point) : res float64 :=
  dx2 ← pow2 (fsub (of_coord (x self)) (of_coord (x in_other)));
  dy2 ← pow2 (fsub (of_coord (y self)) (of_coord (y in_other)));
  Return (fsqrt (fadd dx2 dy2)).

(** [min(dist, key=dist.get)] over float values. *)
Definition py_min (dist : list (Point * float64)) : res Point :=
  match dist with
  | [] => Raise ValueError
  | kv :: rest =>
      Return (fst (fold_left
                     (fun best kv' => if fltb (snd kv') (snd best) then kv' else best)
                     rest kv))
  end.

Section Kmeans.

Variable hash : string -> Z.

(** The inner dictionary [distances[_point]], filled by the inner loop. *)
Definition distances_of (_point : Point) (_in_barycenters : list Point)
    : res (list (Point * float64)) :=
  foldM
    (fun row _barycenter =>
       d ← distance _point _barycenter;
       Return (Dict.set (same_key hash) row _barycenter d))
    _in_barycenters [].

Definition _assign_barycenters (_in_points _in_barycenters : list Point)
    : res (list (Point * Point)) :=
  distances ←
    foldM
      (fun distances _point =>
         row ← distances_of _point _in_barycenters;
         Return (Dict.set (same_key hash) distances _point row))
      _in_points [];
  foldM
    (fun result '(_point, dist) =>
       b ← py_min dist; Return (Dict.set (same_key hash) result _point b))
    distances [].

(** The builtin [sum] on a list of floats. *)
Variable sum : list float64 -> float64.

Definition _find_barycenter (_in_points : list Point) : res Point :=
  let n := Z.of_nat (length _in_points) in
  if n =? 0 then Raise ZeroDivisionError
  else
    match to_float (fdiv (sum (map (fun p => of_coord (x p)) _in_points)) (of_int n)),
          to_float (fdiv (sum (map (fun p => of_coord (y p)) _in_points)) (of_int n)) with
    | Some bx, Some by_ => Return (Point_init bx by_)
    | _, _ => OutOfFuel
    end.

Definition _find_barycenters (_in_barycenter_points : list (Point * list Point))
    : res (bool * list (Point * list Point)) :=
  foldM
    (fun '(_changed, result) '(b, pts) =>
       new_b ← _find_barycenter pts;
       let _changed := if Point_ne b new_b then true else _changed in
       Return (_changed, Dict.set (same_key hash) result new_b pts))
    _in_barycenter_points (false, []).

(** The order in which the interpreter iterates over a set. *)
Variable set_iter : list Point -> list Point.

(** The [while True] loop of [kmeans], at most [fuel] rounds. *)
Fixpoint kmeans_loop (fuel : nat) (in_points barycenters : list Point)
    : res (list (Point * list Point)) :=
  match fuel with
  | O => OutOfFuel
  | S fuel' =>
      _point_barycenter ← _assign_barycenters in_points barycenters;
      let _barycenter_points := group hash set_iter _point_barycenter in
      '(changed, _barycenter_points) ← _find_barycenters _barycenter_points;
      if negb changed then Return _barycenter_points
      else kmeans_loop fuel' in_points (Dict.keys _barycenter_points)
  end.

End Kmeans.

(** [sum] as it adds from the left, starting from the integer 0. *)
Definition sum_left (l : list float64) : float64 :=
  fold_left fadd l (S754_zero false).

(** *** Vocabulary *)

(** Both coordinates of the point are finite floats. *)
Definition finite_point (p : Point) : bool :=
  is_finite (of_coord (x p)) && is_finite (of_coord (y p)).

(** The Euclidean distance as binary64 arithmetic computes it: the two
    differences, their squares, the sum and the square root, each
    rounded. *)
Definition euclid (p q : Point) : float64 :=
  let dx := fsub (of_coord (x p)) (of_coord (x q)) in
  let dy := fsub (of_coord (y p)) (of_coord (y q)) in
  fsqrt (fadd (fmul dx dx) (fmul dy dy)).

(** The square of a finite difference of coordinates is too large for a
    float. *)
Definition overflows (p q : Point) : bool :=
  let dx := fsub (of_coord (x p)) (of_coord (x q)) in
  let dy := fsub (of_coord (y p)) (of_coord (y q)) in
  (is_finite dx && is_infinite (fmul dx dx))
  || (is_finite dy && is_infinite (fmul dy dy)).

(** [c] is the first element of [B] at which the float [g] is least. *)
Definition first_least (g : Point -> float64) (B : list Point) (c : Point) : Prop :=
  exists i : nat,
    B !! i = Some c
    /\ (forall b, In b B -> fleb (g c) (g b) = true)
    /\ (forall j b, (j < i)%nat -> B !! j = Some b -> fltb (g c) (g b) = true).

(** The barycenter that [min] selects for a point. *)
Definition nearest (hash : string -> Z) (bs : list Point) (p : Point) : Point :=
  match py_min (map (fun b => (b, euclid p b)) (set_of hash bs)) with
  | Return c => c
  | _ => mkPoint (Tenths 0) (Tenths 0)
  end.

(** The mean of a list of floats: their [sum] divided by their number. *)
Definition mean (sum : list float64 -> float64) (l : list float64) : float64 :=
  fdiv (sum l) (of_int (Z.of_nat (length l))).

Definition mean_x (sum : list float64 -> float64) (pts : list Point) : float64 :=
  mean sum (map (fun p => of_coord (x p)) pts).

Definition mean_y (sum : list float64 -> float64) (pts : list Point) : float64 :=
  mean sum (map (fun p => of_coord (y p)) pts).


(** The coordinate [c] is a tenth nearest to the finite float [v]. *)
Definition rounded_to_tenth (v : float64) (c : coord) : Prop :=
  exists f : float,
    to_float v = Some f /\ (Qabs (value f * 10 - inject_Z (tenths c)) <= 1 # 2)%Q.

(** [c] is the mean of the points [pts], coordinate by coordinate, each
    rounded to one decimal. *)
Definition is_rounded_mean (sum : list float64 -> float64) (c : Point)
    (pts : list Point) : Prop :=
  rounded_to_tenth (mean_x sum pts) (x c) /\ rounded_to_tenth (mean_y sum pts) (y c).

(** The point [_find_barycenter] returns for a group with finite means. *)
Definition barycenter_of (sum : list float64 -> float64) (pts : list Point) : Point :=
  match _find_barycenter sum pts with
  | Return c => c
  | _ => mkPoint (Tenths 0) (Tenths 0)
  end.

(** The dictionary of the recomputed barycenters. *)
Definition recomputed (hash : string -> Z) (sum : list float64 -> float64)
    (bp result : list (Point * list Point)) : list (Point * list Point) :=
  fold_left
    (fun r item => Dict.set (same_key hash) r (barycenter_of sum (snd item)) (snd item))
    bp result.


(** The order of the floats that are numbers, through three integers
    compared from left to right: the class of the float (negative
    infinity, negative, zero, positive, positive infinity), its exponent
    and its mantissa. *)
Definition rank (f : float64) : Z * Z * Z :=
  match f with
  | S754_infinity true => (-2, 0, 0)
  | S754_finite true m e => (-1, - e, - Zpos m)
  | S754_zero _ => (0, 0, 0)
  | S754_finite false m e => (1, e, Zpos m)
  | S754_infinity false => (2, 0, 0)
  | S754_nan => (3, 0, 0)
  end.

Definition lex_lt (a b : Z * Z * Z) : Prop :=
  let '(a1, a2, a3) := a in
  let '(b1, b2, b3) := b in
  a1 < b1 \/ (a1 = b1 /\ (a2 < b2 \/ (a2 = b2 /\ a3 < b3))).

(** A float that is a number of the given sign. *)
Definition signed (s : bool) (f : float64) : Prop :=
  match f with
  | S754_zero s' | S754_infinity s' | S754_finite s' _ _ => s' = s
  | S754_nan => False
  end.

End Binary64.

(** * Properties *)

(** ** Rounding *)

Lemma round_half_even_cases (q : Q) :
  let r := round_half_even q in
  (r = Qfloor q /\ (q - inject_Z (Qfloor q) <= 1 # 2)%Q)
  \/ (r = Qfloor q + 1 /\ (1 # 2 <= q - inject_Z (Qfloor q))%Q).
Proof.
  unfold round_half_even; cbv zeta.
  destruct (Qcompare_spec (q - inject_Z (Qfloor q)) (1 # 2)) as [He|Hl|Hg].
  - destruct (Z.even (Qfloor q)); [left|right]; split; auto; rewrite He; apply Qle_refl.
  - left; split; auto. apply Qlt_le_weak; exact Hl.
  - right; split; auto. apply Qlt_le_weak; exact Hg.
Qed.

(** The result of rounding is within one half of the argument. *)
Lemma round_half_even_near (q : Q) :
  (Qabs (q - inject_Z (round_half_even q)) <= 1 # 2)%Q.
Proof.
  pose proof (Qfloor_le q) as Hlo. pose proof (Qlt_floor q) as Hhi.
  rewrite inject_Z_plus in Hhi.
  apply Qabs_Qle_condition.
  destruct (round_half_even_cases q) as [[-> H]|[-> H]];
    rewrite ?inject_Z_plus; change (inject_Z 1) with 1%Q in *; split; lra.
Qed.

#[global] Instance round_half_even_comp : Proper (Qeq ==> eq) round_half_even.
Proof.
  intros a b Hab. unfold round_half_even.
  rewrite (Qfloor_comp _ _ Hab).
  assert (Heq : (a - inject_Z (Qfloor b) == b - inject_Z (Qfloor b))%Q)
    by (rewrite Hab; reflexivity).
  rewrite (Qcompare_comp _ _ Heq (1 # 2) (1 # 2) (Qeq_refl _)). reflexivity.
Qed.

(** Whole numbers round to themselves. *)
Lemma round_half_even_Z (z : Z) : round_half_even (inject_Z z) = z.
Proof.
  unfold round_half_even. rewrite Qfloor_Z.
  assert (H : (inject_Z z - inject_Z z ?= 1 # 2)%Q = Lt).
  { apply Qlt_alt. unfold Qminus. rewrite Qplus_opp_r. reflexivity. }
  rewrite H. reflexivity.
Qed.

(** Rounding stays between whole bounds of the argument. *)
Lemma round_half_even_bounds (lo hi : Z) (q : Q) :
  (inject_Z lo <= q)%Q -> (q <= inject_Z hi)%Q ->
  lo <= round_half_even q <= hi.
Proof.
  intros Hlo Hhi.
  pose proof (Qfloor_resp_le _ _ Hlo) as Hf1. rewrite Qfloor_Z in Hf1.
  pose proof (Qfloor_resp_le _ _ Hhi) as Hf2. rewrite Qfloor_Z in Hf2.
  destruct (round_half_even_cases q) as [[-> H]|[-> H]]; [lia|].
  split; [lia|].
  destruct (Z.eq_dec (Qfloor q) hi) as [E|E]; [|lia].
  exfalso. rewrite E in H.
  pose proof (Qlt_floor q) as Hq. rewrite E, inject_Z_plus in Hq.
  change (inject_Z 1) with 1%Q in Hq. lra.
Qed.

Lemma tenths_round1 (q : Q) : tenths (round1 (Fin q)) = round_half_even (q * 10).
Proof.
  unfold round1. destruct (_ && _) eqn:E; [|reflexivity].
  apply andb_true_iff in E as [E _]. apply Z.eqb_eq in E. rewrite E. reflexivity.
Qed.

(** Rounding a rounded coordinate again changes nothing. *)
Lemma round1_to_float (c : coord) : round1 (to_float c) = c.
Proof.
  destruct c as [|t]; [reflexivity|]. unfold to_float, round1.
  assert (E : (inject_Z t / 10 * 10 == inject_Z t)%Q) by (field).
  assert (Hr : round_half_even (inject_Z t / 10 * 10) = t)
    by (rewrite E; apply round_half_even_Z).
  cbv zeta. rewrite Hr.
  destruct (t =? 0) eqn:Ht; [|reflexivity].
  apply Z.eqb_eq in Ht; subst t. reflexivity.
Qed.

Lemma Point_init_to_float (p : Point) : Point_init (to_float (x p)) (to_float (y p)) = p.
Proof. destruct p as [a b]. unfold Point_init; cbn. rewrite !round1_to_float. reflexivity. Qed.

(** ** Equality of points *)

Lemma coord_eqb_eq (a b : coord) : coord_eqb a b = true <-> tenths a = tenths b.
Proof. unfold coord_eqb. apply Z.eqb_eq. Qed.

Lemma Point_eq_iff (a b : Point) :
  Point_eq a b = true <-> tenths (x a) = tenths (x b) /\ tenths (y a) = tenths (y b).
Proof. unfold Point_eq. rewrite andb_true_iff, !coord_eqb_eq. reflexivity. Qed.

Lemma Point_eq_refl (a : Point) : Point_eq a a = true.
Proof. apply Point_eq_iff; split; reflexivity. Qed.

Lemma Point_eq_sym (a b : Point) : Point_eq a b = Point_eq b a.
Proof.
  unfold Point_eq, coord_eqb.
  rewrite (Z.eqb_sym (tenths (x a))), (Z.eqb_sym (tenths (y a))). reflexivity.
Qed.

Lemma Point_eq_trans (a b c : Point) :
  Point_eq a b = true -> Point_eq b c = true -> Point_eq a c = true.
Proof. rewrite !Point_eq_iff. intros [-> ->] [-> ->]. split; reflexivity. Qed.

Lemma Point_eq_distance2_l (a b c : Point) :
  Point_eq a b = true -> distance2 a c = distance2 b c.
Proof. rewrite Point_eq_iff. intros [H1 H2]. unfold distance2. rewrite H1, H2. reflexivity. Qed.

Lemma Point_eq_distance2_r (a b c : Point) :
  Point_eq a b = true -> distance2 c a = distance2 c b.
Proof. rewrite Point_eq_iff. intros [H1 H2]. unfold distance2. rewrite H1, H2. reflexivity. Qed.

(** ** Distance *)

Lemma distance2_nonneg (a b : Point) : 0 <= distance2 a b.
Proof. unfold distance2. nia. Qed.

(** Comparing distances is comparing their squares. *)
Lemma distance_le_iff (p a b : Point) :
  (distance p a <= distance p b)%R <-> distance2 p a <= distance2 p b.
Proof.
  unfold distance.
  pose proof (distance2_nonneg p a) as Ha. pose proof (distance2_nonneg p b) as Hb.
  apply IZR_le in Ha, Hb.
  split; intros H.
  - apply le_IZR. apply sqrt_le_0; try assumption. lra.
  - apply IZR_le in H. apply sqrt_le_1 in H; try assumption. lra.
Qed.

Lemma distance_lt_iff (p a b : Point) :
  (distance p a < distance p b)%R <-> distance2 p a < distance2 p b.
Proof.
  split; intros H.
  - apply Z.nle_gt. intros C. apply distance_le_iff in C. lra.
  - apply Rnot_le_lt. intros C. apply distance_le_iff in C. lia.
Qed.

Example distance_3_4 :
  distance (Point_init (Fin 0) (Fin 0)) (Point_init (Fin 3) (Fin 4)) = 5%R.
Proof.
  unfold distance.
  replace (distance2 _ _) with (50 * 50) by (vm_compute; reflexivity).
  rewrite mult_IZR, sqrt_square by lra. lra.
Qed.

(** ** Results that do not depend on the interpreter *)


Lemma x_min_max_bounds (l : list Point) (lo hi : Z) :
  lo <= 0 <= hi ->
  let r := fold_left
    (fun '(x_min, x_max) point =>
       let x_min := if x_min >? tenths (x point) then tenths (x point) else x_min in
       let x_max := if x_max <? tenths (x point) then tenths (x point) else x_max in
       (x_min, x_max)) l (lo, hi) in
  fst r <= 0 <= snd r.
Proof.
  revert lo hi. induction l as [|p l IH]; intros lo hi H; cbn; [lia|].
  apply IH. destruct (Z.gtb_spec lo (tenths (x p))), (Z.ltb_spec hi (tenths (x p))); lia.
Qed.

Lemma y_min_max_bounds (l : list Point) (lo hi : Z) :
  lo <= 0 <= hi ->
  let r := fold_left
    (fun '(y_min, y_max) point =>
       let y_min := if y_min >? tenths (y point) then tenths (y point) else y_min in
       let y_max := if y_max <? tenths (y point) then tenths (y point) else y_max in
       (y_min, y_max)) l (lo, hi) in
  fst r <= 0 <= snd r.
Proof.
  revert lo hi. induction l as [|p l IH]; intros lo hi H; cbn; [lia|].
  apply IH. destruct (Z.gtb_spec lo (tenths (y p))), (Z.ltb_spec hi (tenths (y p))); lia.
Qed.

(** The zero-seeded accumulators keep 0 inside every bounding range. *)
Lemma x_min_max_zero (l : list Point) : fst (x_min_max l) <= 0 <= snd (x_min_max l).
Proof. apply (x_min_max_bounds l 0 0); lia. Qed.

Lemma y_min_max_zero (l : list Point) : fst (y_min_max l) <= 0 <= snd (y_min_max l).
Proof. apply (y_min_max_bounds l 0 0); lia. Qed.

(** C2, at the input of the spec's regression test: for the points
    (-5,-5) and (-1,-1) the code returns the range (-5, 0) on both axes
    (in tenths: -50 and 0), and not (-5, -1): the maximum never leaves
    its seed 0. *)
Theorem x_min_max_negative_only :
  let pts := [Point_init (Fin (-5)) (Fin (-5)); Point_init (Fin (-1)) (Fin (-1))] in
  x_min_max pts = (-50, 0) /\ y_min_max pts = (-50, 0)
  /\ x_min_max pts <> (-50, -10).
Proof. vm_compute. repeat split; congruence. Qed.

(** C3, as stated, fails on the empty list: [x_min_max] and [y_min_max]
    return the pair of their seeds, and the caller goes on with it:
    [_choose_barycenters] on no point draws its barycenters in the range
    from 0 to 0 and returns the origin. *)
Lemma empty_range_returns_seeds :
  x_min_max [] = (0, 0) /\ y_min_max [] = (0, 0)
  /\ _choose_barycenters [] 1 [1 # 2; 1 # 2]%Q = Return [Point_init (Fin 0) (Fin 0)].
Proof. repeat split; vm_compute; reflexivity. Qed.

(** C3, amended: on an empty collection [x_min_max] and [y_min_max]
    return the pair (0, 0), the seeds of their accumulators. *)
Theorem bounding_range_empty :
  x_min_max [] = (0, 0) /\ y_min_max [] = (0, 0).
Proof. split; reflexivity. Qed.

(** C8: construction rounds each coordinate to a nearest tenth, equality
    of points is equality of both rounded coordinates, and
    Point(2.34999, 5.05001) equals Point(2.3, 5.1). *)
Theorem Point_init_rounds_and_eq :
  (forall a b : Q,
     (Qabs (a * 10 - inject_Z (tenths (x (Point_init (Fin a) (Fin b))))) <= 1 # 2)%Q
     /\ (Qabs (b * 10 - inject_Z (tenths (y (Point_init (Fin a) (Fin b))))) <= 1 # 2)%Q)
  /\ (forall p q : Point,
        Point_eq p q = true <-> tenths (x p) = tenths (x q) /\ tenths (y p) = tenths (y q))
  /\ Point_eq (Point_init (Fin 2.34999) (Fin 5.05001)) (Point_init (Fin 2.3) (Fin 5.1)) = true.
Proof.
  split; [|split].
  - intros a b. cbn [Point_init x y]. rewrite !tenths_round1.
    split; apply round_half_even_near.
  - apply Point_eq_iff.
  - vm_compute. reflexivity.
Qed.

(** C9, at a failing input: Point(-0.01, 0.0) and Point(0.0, 0.0) are
    equal, their coordinates being -0.0 and 0.0, but they are hashed
    through the different strings "-0.0,0.0" and "0.0,0.0"; their hashes
    differ as soon as the string hash tells these two strings apart. *)
Theorem Point_hash_negative_zero (hash : string -> Z) :
  hash "-0.0,0.0" <> hash "0.0,0.0" ->
  let a := Point_init (Fin (-0.01)) (Fin 0) in
  let b := Point_init (Fin 0) (Fin 0) in
  Point_eq a b = true
  /\ format_xy a = "-0.0,0.0" /\ format_xy b = "0.0,0.0"
  /\ Point_hash hash a <> Point_hash hash b.
Proof.
  intros H a b. split; [|split; [|split]]; try (vm_compute; reflexivity).
  unfold Point_hash.
  replace (format_xy a) with "-0.0,0.0" by (vm_compute; reflexivity).
  replace (format_xy b) with "0.0,0.0" by (vm_compute; reflexivity).
  exact H.
Qed.

Lemma Point_hash_negative_zero_witness :
  len_hash "-0.0,0.0" <> len_hash "0.0,0.0"
  /\ Point_hash len_hash (Point_init (Fin (-0.01)) (Fin 0))
     <> Point_hash len_hash (Point_init (Fin 0) (Fin 0)).
Proof.
  assert (H : len_hash "-0.0,0.0" <> len_hash "0.0,0.0") by (vm_compute; discriminate).
  split; [exact H|].
  exact (proj2 (proj2 (proj2 (Point_hash_negative_zero len_hash H)))).
Defined.

(** ** Keys of dictionaries and members of sets *)

Lemma distinct_app (eqb : Point -> Point -> bool) (l1 l2 : list Point) :
  distinct eqb (l1 ++ l2) <->
  distinct eqb l1 /\ distinct eqb l2
  /\ (forall a b, In a l1 -> In b l2 -> eqb a b = false).
Proof.
  induction l1 as [|a l1 IH]; cbn.
  - intuition.
  - rewrite IH. split.
    + intros (Ha & H1 & H2 & H12). repeat split; auto.
      * intros b Hb. apply Ha, in_or_app; auto.
      * intros a' b [<-|Ha'] Hb; [apply Ha, in_or_app|]; auto.
    + intros ((Ha & H1) & H2 & H12). repeat split; auto.
      intros b Hb. apply in_app_or in Hb as [Hb|Hb]; auto.
Qed.

Lemma distinct_lookup (eqb : Point -> Point -> bool) (l : list Point) (i j : nat) (a b : Point) :
  (forall a, eqb a a = true) -> (forall a b, eqb a b = eqb b a) ->
  distinct eqb l -> l !! i = Some a -> l !! j = Some b -> eqb a b = true -> i = j.
Proof.
  intros Hrefl Hsym. revert i j. induction l as [|c l IH]; intros i j Hd Hi Hj Hab; [discriminate|].
  destruct Hd as [Hc Hd].
  destruct i as [|i], j as [|j]; cbn in Hi, Hj; auto.
  - injection Hi as ->. apply list_elem_of_lookup_2, list_elem_of_In in Hj.
    rewrite (Hc _ Hj) in Hab. discriminate.
  - injection Hj as ->. apply list_elem_of_lookup_2, list_elem_of_In in Hi.
    rewrite Hsym, (Hc _ Hi) in Hab. discriminate.
Qed.

Lemma distinct_Permutation (eqb : Point -> Point -> bool) (l l' : list Point) :
  (forall a b, eqb a b = eqb b a) ->
  Permutation l l' -> distinct eqb l -> distinct eqb l'.
Proof.
  intros Hsym HP. induction HP as [|a l l' HP IH|a b l|l l' l'' HP1 IH1 HP2 IH2]; cbn; auto.
  - intros [Ha Hd]. split; auto. intros b Hb. apply Ha. eapply Permutation_in; [symmetry|]; eauto.
  - intros (Hb & Ha & Hd). repeat split; auto.
    intros c [<-|Hc]; auto. rewrite Hsym. apply Hb. left; reflexivity.
Qed.

Section Keys.

Variable hash : string -> Z.

Abbreviation same := (same_key hash).
Abbreviation add := (set_add hash).
Abbreviation members := (set_of hash).

Lemma same_key_refl (a : Point) : same a a = true.
Proof. unfold same_key. rewrite Z.eqb_refl, Point_eq_refl. reflexivity. Qed.

Lemma same_key_sym (a b : Point) : same a b = same b a.
Proof. unfold same_key. rewrite Z.eqb_sym, Point_eq_sym. reflexivity. Qed.

Lemma same_key_trans (a b c : Point) :
  same a b = true -> same b c = true -> same a c = true.
Proof.
  unfold same_key. rewrite !andb_true_iff, !Z.eqb_eq.
  intros [H1 H2] [H3 H4]. split; [congruence|]. eapply Point_eq_trans; eauto.
Qed.

Lemma same_key_Point_eq (a b : Point) : same a b = true -> Point_eq a b = true.
Proof. unfold same_key. rewrite andb_true_iff. tauto. Qed.

(** Points that are pairwise different for [__eq__] are different keys. *)
Lemma distinct_Point_eq_same_key (l : list Point) :
  distinct Point_eq l -> distinct same l.
Proof.
  induction l as [|a l IH]; cbn; auto. intros [Ha Hd]. split; auto.
  intros b Hb. destruct (same a b) eqn:E; auto.
  apply same_key_Point_eq in E. rewrite (Ha _ Hb) in E. discriminate.
Qed.

Lemma existsb_same_false (s : list Point) (p : Point) :
  existsb (fun q => same q p) s = false <-> forall q, In q s -> same q p = false.
Proof.
  induction s as [|a s IH]; cbn; [tauto|].
  rewrite orb_false_iff, IH. split.
  - intros [Ha Hs] q [<-|Hq]; auto.
  - intros H. split; auto.
Qed.

Lemma existsb_same_true (s : list Point) (p : Point) :
  existsb (fun q => same q p) s = true <-> exists q, In q s /\ same q p = true.
Proof. rewrite existsb_exists. reflexivity. Qed.

Lemma set_of_app (l : list Point) (a : Point) : members (l ++ [a]) = add (members l) a.
Proof. unfold set_of. rewrite fold_left_app. reflexivity. Qed.

Lemma set_add_distinct (s : list Point) (p : Point) :
  distinct same s -> distinct same (add s p).
Proof.
  intros Hd. unfold set_add.
  destruct (existsb _ s) eqn:E; auto.
  apply distinct_app. split; [exact Hd|split].
  - cbn. split; [intros ? []|exact I].
  - intros a b Ha [<-|[]]. eapply existsb_same_false in E; eauto.
Qed.

Lemma fold_set_add_distinct (l s : list Point) :
  distinct same s -> distinct same (fold_left add l s).
Proof. revert s. induction l as [|a l IH]; cbn; auto using set_add_distinct. Qed.

(** The members of a set are pairwise different keys. *)
Lemma set_of_distinct (l : list Point) : distinct same (members l).
Proof. apply fold_set_add_distinct. exact I. Qed.

Lemma set_add_In (s : list Point) (p q : Point) :
  In q (add s p) -> In q s \/ q = p.
Proof.
  unfold set_add. destruct (existsb _ s); auto.
  intros H. apply in_app_or in H as [H|[H|[]]]; auto.
Qed.

Lemma set_add_incl (s : list Point) (p q : Point) : In q s -> In q (add s p).
Proof. unfold set_add. destruct (existsb _ s); auto. intros; apply in_or_app; auto. Qed.

Lemma set_add_covers (s : list Point) (p : Point) :
  exists q, In q (add s p) /\ same q p = true.
Proof.
  unfold set_add. destruct (existsb _ s) eqn:E.
  - apply existsb_same_true in E. exact E.
  - exists p. split; [apply in_or_app; right; left; reflexivity|apply same_key_refl].
Qed.

(** Every member of [set(l)] is an element of [l]. *)
Lemma set_of_In (l : list Point) (q : Point) : In q (members l) -> In q l.
Proof.
  revert q. induction l as [|a l IH] using rev_ind; intros q; [intros []|].
  rewrite set_of_app. intros H. apply in_or_app.
  apply set_add_In in H as [H| ->]; [left; auto|right; left; reflexivity].
Qed.

(** Every element of [l] is, as a key, a member of [set(l)]. *)
Lemma set_of_covers (l : list Point) (p : Point) :
  In p l -> exists q, In q (members l) /\ same q p = true.
Proof.
  induction l as [|a l IH] using rev_ind; [intros []|].
  rewrite set_of_app. intros H. apply in_app_or in H as [H|[<-|[]]].
  - destruct (IH H) as (q & Hq & Hs). exists q. split; auto using set_add_incl.
  - apply set_add_covers.
Qed.

Lemma set_of_nonempty (l : list Point) : l <> [] -> members l <> [].
Proof.
  destruct l as [|a l]; [congruence|]. intros _ E.
  destruct (set_of_covers (a :: l) a) as (q & Hq & _); [left; reflexivity|].
  rewrite E in Hq. destruct Hq.
Qed.

End Keys.

(** ** Dictionaries keyed by points *)

Section Dicts.

Variable hash : string -> Z.

Abbreviation same := (same_key hash).

(** Assigning to a key that is not in the dictionary appends an item. *)
Lemma dict_set_fresh {V : Type} (d : list (Point * V)) (k : Point) (v : V) :
  (forall k', In k' (Dict.keys d) -> same k' k = false) ->
  Dict.set same d k v = d ++ [(k, v)].
Proof.
  induction d as [|[k0 v0] d IH]; cbn; intros H; [reflexivity|].
  rewrite (H k0) by (left; reflexivity). rewrite IH; auto.
Qed.

(** Reading a key of a dictionary whose keys are pairwise different. *)
Lemma dict_get_map {V : Type} (g : Point -> V) (A : list Point) (k : Point) :
  distinct same A -> In k A ->
  Dict.get same (map (fun k => (k, g k)) A) k = Some (g k).
Proof.
  induction A as [|a A IH]; cbn; intros Hd Hin; [destruct Hin|].
  destruct Hd as [Ha Hd]. destruct Hin as [->|Hin].
  - rewrite same_key_refl. reflexivity.
  - rewrite (Ha _ Hin). auto.
Qed.

(** Filling a dictionary from a list of keys, the value being a
    function of the key that does not tell same keys apart. *)
Lemma dict_set_map {V : Type} (g : Point -> V) (A : list Point) (b : Point) :
  (forall k, same k b = true -> g b = g k) ->
  Dict.set same (map (fun k => (k, g k)) A) b (g b)
  = map (fun k => (k, g k)) (set_add hash A b).
Proof.
  intros Hg. induction A as [|a A IH]; [reflexivity|].
  unfold set_add in *. cbn. destruct (same a b) eqn:E; cbn.
  - rewrite (Hg a E). reflexivity.
  - rewrite IH. destruct (existsb _ A); reflexivity.
Qed.

Lemma fold_dict_set_map {V : Type} (g : Point -> V) (l A : list Point) :
  (forall k b, same k b = true -> g b = g k) ->
  fold_left (fun d b => Dict.set same d b (g b)) l (map (fun k => (k, g k)) A)
  = map (fun k => (k, g k)) (fold_left (set_add hash) l A).
Proof.
  intros Hg. revert A. induction l as [|b l IH]; intros A; cbn; [reflexivity|].
  rewrite dict_set_map by auto. apply IH.
Qed.

(** The row of distances of a point: one item for each member of the
    set of barycenters, in the order of their first occurrence. *)
Lemma distances_of_map (p : Point) (bs : list Point) :
  distances_of hash p bs = map (fun b => (b, distance2 p b)) (set_of hash bs).
Proof.
  unfold distances_of, set_of.
  apply (fold_dict_set_map (distance2 p) bs []).
  intros k b H. symmetry. apply Point_eq_distance2_r, same_key_Point_eq with hash, H.
Qed.

Lemma distances_of_same (p q : Point) (bs : list Point) :
  same p q = true -> distances_of hash q bs = distances_of hash p bs.
Proof.
  intros H. rewrite !distances_of_map. apply map_ext. intros b. f_equal.
  symmetry. apply Point_eq_distance2_l, same_key_Point_eq with hash, H.
Qed.

(** ** [min] *)

Lemma min_step_inv (rest seen : list (Point * Z)) (best : Point * Z) :
  min_inv seen best -> min_inv (seen ++ rest) (fold_left min_step rest best).
Proof.
  revert seen best. induction rest as [|kv rest IH]; intros seen best Hinv; cbn.
  - rewrite app_nil_r. exact Hinv.
  - replace (seen ++ kv :: rest) with ((seen ++ [kv]) ++ rest)
      by (rewrite <- app_assoc; reflexivity).
    apply IH. destruct Hinv as (i & Hi & Hmin & Hfirst).
    pose proof (lookup_lt_Some _ _ _ Hi) as Hlt.
    unfold min_step. destruct (Z.ltb_spec (snd kv) (snd best)) as [Hc|Hc].
    + exists (length seen). split; [|split].
      * rewrite lookup_app_r, Nat.sub_diag by lia. reflexivity.
      * intros kv' Hin. apply in_app_or in Hin as [Hin|[<-|[]]]; [|lia].
        specialize (Hmin _ Hin). lia.
      * intros j kv' Hj Hl. rewrite lookup_app_l in Hl by lia.
        apply list_elem_of_lookup_2, list_elem_of_In in Hl.
        specialize (Hmin _ Hl). lia.
    + exists i. split; [|split].
      * rewrite lookup_app_l by lia. exact Hi.
      * intros kv' Hin. apply in_app_or in Hin as [Hin|[<-|[]]]; auto.
      * intros j kv' Hj Hl. rewrite lookup_app_l in Hl by lia. eauto.
Qed.

(** [min] over a non-empty dictionary returns its first least key. *)
Lemma py_min_first_min (g : Point -> Z) (B : list Point) :
  B <> [] ->
  exists c, py_min (map (fun b => (b, g b)) B) = Return c /\ first_min g B c.
Proof.
  destruct B as [|b0 B]; [congruence|]. intros _. cbn.
  eexists. split; [reflexivity|].
  pose proof (min_step_inv (map (fun b => (b, g b)) B) [(b0, g b0)] (b0, g b0)) as H.
  fold min_step.
  destruct H as (i & Hi & Hmin & Hfirst).
  { exists 0%nat. split; [reflexivity|]. split.
    - intros kv [<-|[]]. lia.
    - intros j kv Hj. lia. }
  set (best := fold_left min_step _ _) in *.
  change ([(b0, g b0)] ++ map (fun b => (b, g b)) B)
    with (map (fun b => (b, g b)) (b0 :: B)) in *.
  rewrite list_lookup_fmap in Hi.
  destruct ((b0 :: B) !! i) as [c|] eqn:Hc; [|discriminate].
  cbn in Hi. injection Hi as Hi. rewrite <- Hi in *. cbn [fst snd] in *.
  exists i. split; [exact Hc|]. split.
  - intros b Hb. apply (Hmin (b, g b)). apply in_map_iff. eauto.
  - intros j b Hj Hb. apply (Hfirst j (b, g b)); auto.
    rewrite list_lookup_fmap, Hb. reflexivity.
Qed.

Lemma first_min_In (g : Point -> Z) (B : list Point) (c : Point) :
  first_min g B c -> In c B.
Proof. intros (i & Hi & _). apply list_elem_of_In. eapply list_elem_of_lookup_2; eauto. Qed.

(** Two first least elements, for two functions, that are equal points
    are the same element, as soon as neither function tells equal
    points apart. *)
Lemma first_min_Point_eq (g g' : Point -> Z) (B : list Point) (c c' : Point) :
  (forall a b, Point_eq a b = true -> g a = g b) ->
  (forall a b, Point_eq a b = true -> g' a = g' b) ->
  first_min g B c -> first_min g' B c' -> Point_eq c c' = true -> c = c'.
Proof.
  intros Hg Hg' (i & Hi & Hmin & Hfirst) (i' & Hi' & Hmin' & Hfirst') E.
  assert (i = i') as ->; [|congruence].
  destruct (Nat.lt_trichotomy i i') as [H|[H|H]]; auto.
  - specialize (Hfirst' _ _ H Hi). rewrite (Hg' _ _ E) in Hfirst'. lia.
  - specialize (Hfirst _ _ H Hi'). rewrite (Hg _ _ E) in Hfirst. lia.
Qed.

End Dicts.

(** ** [_assign_barycenters] *)

Section Assign.

Variable hash : string -> Z.

Abbreviation same := (same_key hash).

(** A member of [set(l)] is an element of [l], and every element before
    it in [l] is the same key as a member before it in the set. *)
Lemma set_of_first (l : list Point) (i : nat) (c : Point) :
  set_of hash l !! i = Some c ->
  exists k : nat,
    l !! k = Some c
    /\ forall j b, (j < k)%nat -> l !! j = Some b ->
         exists i' q, (i' < i)%nat /\ set_of hash l !! i' = Some q /\ same q b = true.
Proof.
  revert i c. induction l as [|a l IH] using rev_ind; intros i c Hi; [discriminate|].
  rewrite set_of_app in *. unfold set_add in *.
  destruct (existsb _ (set_of hash l)) eqn:E.
  - destruct (IH _ _ Hi) as (k & Hk & Hbefore).
    pose proof (lookup_lt_Some _ _ _ Hk) as Hlt.
    exists k. split; [rewrite lookup_app_l by lia; exact Hk|].
    intros j b Hj Hb. rewrite lookup_app_l in Hb by lia. eauto.
  - destruct (Nat.lt_ge_cases i (length (set_of hash l))) as [Hlt|Hge].
    + rewrite lookup_app_l in Hi by lia.
      destruct (IH _ _ Hi) as (k & Hk & Hbefore).
      pose proof (lookup_lt_Some _ _ _ Hk) as Hlt'.
      exists k. split; [rewrite lookup_app_l by lia; exact Hk|].
      intros j b Hj Hb. rewrite lookup_app_l in Hb by lia.
      destruct (Hbefore _ _ Hj Hb) as (i' & q & Hi' & Hq & Hs).
      exists i', q. split; [exact Hi'|]. split; [|exact Hs].
      rewrite lookup_app_l by lia. exact Hq.
    + rewrite lookup_app_r in Hi by lia.
      destruct (i - length (set_of hash l))%nat as [|n] eqn:En; [|destruct n; discriminate].
      injection Hi as <-. assert (i = length (set_of hash l)) as -> by lia.
      exists (length l). split; [rewrite lookup_app_r, Nat.sub_diag by lia; reflexivity|].
      intros j b Hj Hb. rewrite lookup_app_l in Hb by lia.
      apply list_elem_of_lookup_2, list_elem_of_In in Hb.
      destruct (set_of_covers hash l b Hb) as (q & Hq & Hs).
      apply list_elem_of_In, list_elem_of_lookup_1 in Hq as [i' Hi'].
      pose proof (lookup_lt_Some _ _ _ Hi') as Hlt.
      exists i', q. split; [exact Hlt|]. split; [|exact Hs].
      rewrite lookup_app_l by lia. exact Hi'.
Qed.

(** The first least member of the set of barycenters is the first least
    element of the list of barycenters. *)
Lemma first_min_set_of (g : Point -> Z) (bs : list Point) (c : Point) :
  (forall a b, same a b = true -> g a = g b) ->
  first_min g (set_of hash bs) c -> first_min g bs c.
Proof.
  intros Hg (i & Hi & Hmin & Hfirst).
  destruct (set_of_first _ _ _ Hi) as (k & Hk & Hbefore).
  exists k. split; [exact Hk|]. split.
  - intros b Hb. destruct (set_of_covers hash bs b Hb) as (q & Hq & Hs).
    rewrite <- (Hg _ _ Hs). auto.
  - intros j b Hj Hb. destruct (Hbefore _ _ Hj Hb) as (i' & q & Hi' & Hq & Hs).
    rewrite <- (Hg _ _ Hs). eauto.
Qed.

Lemma nearest_spec (bs : list Point) (p : Point) :
  bs <> [] ->
  py_min (distances_of hash p bs) = Return (nearest hash bs p)
  /\ first_min (distance2 p) (set_of hash bs) (nearest hash bs p).
Proof.
  intros Hbs. unfold nearest. rewrite distances_of_map.
  destruct (py_min_first_min (distance2 p) (set_of hash bs)) as (c & -> & Hc);
    [apply set_of_nonempty; exact Hbs|].
  split; [reflexivity|exact Hc].
Qed.

Lemma nearest_first_min (bs : list Point) (p : Point) :
  bs <> [] -> first_min (distance2 p) bs (nearest hash bs p).
Proof.
  intros Hbs. apply first_min_set_of; [|apply nearest_spec; exact Hbs].
  intros a b H. apply Point_eq_distance2_r, same_key_Point_eq with hash, H.
Qed.

Lemma nearest_same (bs : list Point) (p q : Point) :
  same p q = true -> nearest hash bs q = nearest hash bs p.
Proof. intros H. unfold nearest. rewrite (distances_of_same hash p q bs H). reflexivity. Qed.

Lemma foldM_assign (bs K A : list Point) :
  bs <> [] -> distinct same (A ++ K) ->
  foldM (assign_step hash)
    (map (fun p => (p, distances_of hash p bs)) K)
    (map (fun p => (p, nearest hash bs p)) A)
  = Return (map (fun p => (p, nearest hash bs p)) (A ++ K)).
Proof.
  intros Hbs. revert A. induction K as [|k K IH]; intros A Hd; cbn.
  - rewrite app_nil_r. reflexivity.
  - rewrite (proj1 (nearest_spec bs k Hbs)). cbn.
    rewrite dict_set_fresh.
    + change [(k, nearest hash bs k)] with (map (fun p => (p, nearest hash bs p)) [k]).
      rewrite <- map_app.
      replace (A ++ k :: K) with ((A ++ [k]) ++ K) in * by (rewrite <- app_assoc; reflexivity).
      apply IH. exact Hd.
    + intros k' Hk'. unfold Dict.keys in Hk'. rewrite map_map in Hk'. cbn in Hk'.
      rewrite map_id in Hk'.
      apply distinct_app in Hd as (_ & _ & Hd). apply Hd; [exact Hk'|left; reflexivity].
Qed.

(** With at least one barycenter the assignment returns: it maps every
    member of the set of points to the barycenter [min] selects. *)
Lemma assign_returns (pts bs : list Point) :
  bs <> [] ->
  _assign_barycenters hash pts bs
  = Return (map (fun p => (p, nearest hash bs p)) (set_of hash pts)).
Proof.
  intros Hbs. unfold _assign_barycenters.
  pose proof (fold_dict_set_map hash (fun p => distances_of hash p bs) pts []) as Hf.
  cbn [map] in Hf. rewrite Hf by (intros k b H; apply distances_of_same, H).
  apply (foldM_assign bs (set_of hash pts) [] Hbs). apply set_of_distinct.
Qed.

(** Without barycenters the assignment returns for no point and raises
    as soon as there is one. *)
Lemma assign_no_barycenter (pts : list Point) :
  _assign_barycenters hash pts []
  = match pts with [] => Return [] | _ => Raise ValueError end.
Proof.
  unfold _assign_barycenters.
  pose proof (fold_dict_set_map hash (fun p => distances_of hash p []) pts []) as Hf.
  cbn [map] in Hf. rewrite Hf by (intros; reflexivity).
  destruct pts as [|p pts]; [reflexivity|].
  change (fold_left (set_add hash) (p :: pts) []) with (set_of hash (p :: pts)).
  destruct (set_of hash (p :: pts)) as [|k K] eqn:E.
  - exfalso. revert E. apply set_of_nonempty. discriminate.
  - reflexivity.
Qed.

End Assign.

Lemma dict_get_map_same (hash : string -> Z) {V : Type} (g : Point -> V)
    (A : list Point) (p : Point) :
  (forall k, same_key hash k p = true -> g k = g p) ->
  (exists q, In q A /\ same_key hash q p = true) ->
  Dict.get (same_key hash) (map (fun k => (k, g k)) A) p = Some (g p).
Proof.
  intros Hg. induction A as [|a A IH]; intros (q & Hq & Hs); [destruct Hq|]. cbn.
  destruct (same_key hash a p) eqn:E; [rewrite (Hg _ E); reflexivity|].
  apply IH. destruct Hq as [->|Hq]; [congruence|eauto].
Qed.

(** What the assignment is when it returns, with or without barycenters. *)
Lemma assign_shape (hash : string -> Z) (pts bs : list Point) (a : list (Point * Point)) :
  _assign_barycenters hash pts bs = Return a ->
  a = map (fun p => (p, nearest hash bs p)) (set_of hash pts).
Proof.
  destruct bs as [|b bs].
  - rewrite assign_no_barycenter. destruct pts; [|discriminate].
    intros [= <-]. reflexivity.
  - rewrite assign_returns by discriminate. intros [= <-]. reflexivity.
Qed.



(** In exact arithmetic, with at least one barycenter, the assignment
    returns a dictionary that gives every point of the list a barycenter
    of the list at the least Euclidean distance from the point, and among
    the barycenters at that distance the one that comes first in the
    list. *)
Lemma assign_nearest_exact (hash : string -> Z) (pts bs : list Point) :
  bs <> [] ->
  exists a : list (Point * Point),
    _assign_barycenters hash pts bs = Return a
    /\ forall p, In p pts ->
         exists (c : Point) (i : nat),
           Dict.get (same_key hash) a p = Some c
           /\ bs !! i = Some c
           /\ (forall b, In b bs -> (distance p c <= distance p b)%R)
           /\ (forall j b, (j < i)%nat -> bs !! j = Some b ->
                 (distance p c < distance p b)%R).
Proof.
  intros Hbs. eexists. split; [apply assign_returns; exact Hbs|].
  intros p Hp.
  destruct (nearest_first_min hash bs p Hbs) as (i & Hi & Hmin & Hfirst).
  exists (nearest hash bs p), i. split; [|split; [exact Hi|split]].
  - apply (dict_get_map_same hash (nearest hash bs)).
    + intros k Hk. apply nearest_same. rewrite same_key_sym. exact Hk.
    + apply set_of_covers. exact Hp.
  - intros b Hb. apply distance_le_iff. auto.
  - intros j b Hj Hb. apply distance_lt_iff. eauto.
Qed.

(** ** Centroid recomputation *)

Lemma find_barycenter_nonempty (pts : list Point) :
  pts <> [] -> _find_barycenter pts = Return (barycenter_of pts).
Proof.
  intros H. unfold _find_barycenter.
  destruct (Z.eqb_spec (Z.of_nat (length pts)) 0) as [E|E]; [|reflexivity].
  destruct pts; [congruence|]. cbn in E. lia.
Qed.

Lemma find_barycenter_empty : _find_barycenter [] = Raise ZeroDivisionError.
Proof. reflexivity. Qed.

Section Recompute.

Variable hash : string -> Z.

Abbreviation same := (same_key hash).

Lemma foldM_recompute (bp : list (Point * list Point)) (ch : bool)
    (result : list (Point * list Point)) :
  (forall item, In item bp -> snd item <> []) ->
  foldM (recompute_step hash) bp (ch, result)
  = Return (some_changed bp || ch, recomputed hash bp result).
Proof.
  revert ch result. induction bp as [|[b pts] bp IH]; intros ch result H; cbn.
  - reflexivity.
  - rewrite find_barycenter_nonempty by (apply (H (b, pts)); left; reflexivity).
    cbn. rewrite IH by (intros; apply H; right; assumption).
    unfold some_changed. cbn.
    destruct (Point_ne b (barycenter_of pts)); cbn; [|reflexivity].
    rewrite !orb_true_r. reflexivity.
Qed.

(** When no group is empty, the recomputation returns. *)
Lemma find_barycenters_returns (bp : list (Point * list Point)) :
  (forall item, In item bp -> snd item <> []) ->
  _find_barycenters hash bp = Return (some_changed bp, recomputed hash bp []).
Proof.
  intros H. unfold _find_barycenters.
  change (foldM (recompute_step hash) bp (false, [])
          = Return (some_changed bp, recomputed hash bp [])).
  rewrite foldM_recompute by exact H. rewrite orb_false_r. reflexivity.
Qed.

(** With an empty group somewhere, it raises. *)
Lemma foldM_recompute_empty (bp : list (Point * list Point))
    (st : bool * list (Point * list Point)) :
  (exists b, In (b, []) bp) ->
  foldM (recompute_step hash) bp st = Raise ZeroDivisionError.
Proof.
  revert st. induction bp as [|[b pts] bp IH]; intros [ch result] (b0 & Hb0); [destruct Hb0|].
  cbn. destruct pts as [|p pts].
  - reflexivity.
  - rewrite find_barycenter_nonempty by discriminate. cbn.
    apply IH. destruct Hb0 as [E|Hb0]; [discriminate|eauto].
Qed.

Lemma some_changed_false (bp : list (Point * list Point)) :
  some_changed bp = false <->
  forall b pts, In (b, pts) bp -> Point_eq b (barycenter_of pts) = true.
Proof.
  unfold some_changed. induction bp as [|[b0 pts0] bp IH]; cbn.
  - split; [intros _ ? ? []|reflexivity].
  - rewrite orb_false_iff, IH. unfold Point_ne. rewrite negb_false_iff. split.
    + intros [H0 H] b pts [[= <- <-]|Hin]; auto.
    + intros H. split; auto.
Qed.

Lemma some_changed_true (bp : list (Point * list Point)) :
  some_changed bp = true <->
  exists b pts, In (b, pts) bp /\ Point_eq b (barycenter_of pts) = false.
Proof.
  unfold some_changed. rewrite existsb_exists. unfold Point_ne. split.
  - intros ([b pts] & Hin & H). apply negb_true_iff in H. eauto.
  - intros (b & pts & Hin & H). exists (b, pts). split; [exact Hin|].
    apply negb_true_iff. exact H.
Qed.

(** When the recomputed barycenters are pairwise different points, no
    item overwrites another. *)
Lemma recomputed_distinct (bp result : list (Point * list Point)) :
  distinct same (Dict.keys result ++ map (fun item => barycenter_of (snd item)) bp) ->
  recomputed hash bp result
  = result ++ map (fun item => (barycenter_of (snd item), snd item)) bp.
Proof.
  revert result. induction bp as [|[b pts] bp IH]; intros result Hd; cbn.
  - rewrite app_nil_r. reflexivity.
  - unfold recomputed in *. cbn. rewrite dict_set_fresh.
    + rewrite IH.
      * rewrite <- app_assoc. reflexivity.
      * unfold Dict.keys in *. rewrite map_app. cbn. rewrite <- app_assoc. exact Hd.
    + intros k Hk. apply distinct_app in Hd as (_ & _ & Hd).
      apply Hd; [exact Hk|left; reflexivity].
Qed.

End Recompute.

(** ** Grouping *)

Section Grouping.

Variable hash : string -> Z.
Variable set_iter : list Point -> list Point.

(** Iterating over a set visits each member once, in some order. *)
Hypothesis set_iter_perm : forall l, Permutation (set_iter l) (set_of hash l).

Abbreviation same := (same_key hash).

Lemma set_iter_distinct (l : list Point) : distinct same (set_iter l).
Proof.
  apply (distinct_Permutation same (set_of hash l)).
  - apply same_key_sym.
  - symmetry. apply set_iter_perm.
  - apply set_of_distinct.
Qed.

Lemma set_iter_In (l : list Point) (n : Point) : In n (set_iter l) -> In n l.
Proof. intros H. apply (set_of_In hash). eapply Permutation_in; [apply set_iter_perm|exact H]. Qed.

Lemma set_iter_covers (l : list Point) (v : Point) :
  In v l -> exists n, In n (set_iter l) /\ same n v = true.
Proof.
  intros H. destruct (set_of_covers hash l v H) as (n & Hn & Hs).
  exists n. split; [|exact Hs].
  eapply Permutation_in; [symmetry; apply set_iter_perm|exact Hn].
Qed.

Lemma fold_dict_set_distinct {V : Type} (g : Point -> V) (l A : list Point) :
  distinct same (A ++ l) ->
  fold_left (fun d b => Dict.set same d b (g b)) l (map (fun k => (k, g k)) A)
  = map (fun k => (k, g k)) (A ++ l).
Proof.
  revert A. induction l as [|b l IH]; intros A Hd; cbn.
  - rewrite app_nil_r. reflexivity.
  - rewrite dict_set_fresh.
    + change [(b, g b)] with (map (fun k => (k, g k)) [b]). rewrite <- map_app.
      replace (A ++ b :: l) with ((A ++ [b]) ++ l) in * by (rewrite <- app_assoc; reflexivity).
      apply IH. exact Hd.
    + intros k' Hk'. unfold Dict.keys in Hk'. rewrite map_map, map_id in Hk'.
      apply distinct_app in Hd as (_ & _ & Hd). apply Hd; [exact Hk'|left; reflexivity].
Qed.

(** The comprehension builds one item for each member of the set of
    assigned barycenters. *)
Lemma group_map (a : list (Point * Point)) :
  group hash set_iter a
  = map (fun n => (n, members_of hash a n)) (set_iter (Dict.values a)).
Proof.
  unfold group.
  apply (fold_dict_set_distinct (members_of hash a) (set_iter (Dict.values a)) []).
  apply set_iter_distinct.
Qed.

Lemma members_of_assignment (f : Point -> Point) (K : list Point) (n : Point) :
  distinct same K ->
  members_of hash (map (fun p => (p, f p)) K) n
  = List.filter (fun k => Point_eq (f k) n) K.
Proof.
  intros Hd. unfold members_of, Dict.keys. rewrite map_map, map_id.
  apply filter_ext_in. intros k Hk.
  rewrite (dict_get_map hash f K k Hd Hk). reflexivity.
Qed.

(** Every group has a member, and its barycenter is assigned to some
    point. *)
Lemma group_nonempty (pts bs : list Point) (a : list (Point * Point)) :
  _assign_barycenters hash pts bs = Return a ->
  forall n ms, In (n, ms) (group hash set_iter a) ->
    ms <> [] /\ exists p, In (p, n) a.
Proof.
  intros Ha n ms Hin. apply assign_shape in Ha.
  rewrite group_map in Hin. apply in_map_iff in Hin as (n' & [= -> <-] & Hn).
  apply set_iter_In in Hn. unfold Dict.values in Hn.
  apply in_map_iff in Hn as ([p c] & Hc & Hp). cbn in Hc. subst c.
  split; [|exists p; exact Hp].
  rewrite Ha in Hp |- *. rewrite members_of_assignment by apply set_of_distinct.
  apply in_map_iff in Hp as (k & [= -> Hk] & HK).
  intros E.
  assert (Hin : In p (List.filter (fun k => Point_eq (nearest hash bs k) n)
                        (set_of hash pts))).
  { apply filter_In. split; [exact HK|]. rewrite Hk. apply Point_eq_refl. }
  rewrite E in Hin. destruct Hin.
Qed.

Lemma group_recompute_returns (pts bs : list Point) (a : list (Point * Point)) :
  _assign_barycenters hash pts bs = Return a ->
  _find_barycenters hash (group hash set_iter a)
  = Return (some_changed (group hash set_iter a), recomputed hash (group hash set_iter a) []).
Proof.
  intros Ha. apply find_barycenters_returns.
  intros [n ms] Hin. cbn. eapply group_nonempty; eauto.
Qed.


End Grouping.



(** A barycenter to which no point is assigned has no group. *)
Example group_drops_unused_barycenter :
  let pts := [Point_init (Fin 0) (Fin 0); Point_init (Fin 0) (Fin 1)] in
  let bs := [Point_init (Fin 0) (Fin 0.4); Point_init (Fin 9) (Fin 9)] in
  (a ← _assign_barycenters len_hash pts bs; Return (group len_hash (set_of len_hash) a))
  = Return [(Point_init (Fin 0) (Fin 0.4), pts)].
Proof. vm_compute. reflexivity. Qed.

(** ** The recomputed barycenter is the rounded mean *)

Lemma fold_left_Qplus (l : list Q) (a : Q) : (fold_left Qplus l a == a + Qtotal l)%Q.
Proof.
  unfold Qtotal. revert a.
  induction l as [|q l IH]; intros a; cbn [fold_left fold_right].
  - ring.
  - rewrite IH. ring.
Qed.

Lemma Qsum_Qtotal (l : list Q) : (Qsum l == Qtotal l)%Q.
Proof. unfold Qsum. rewrite fold_left_Qplus. ring. Qed.

Lemma round1_rounded_to_tenth (q q' : Q) :
  (q == q')%Q -> rounded_to_tenth q' (round1 (Fin q)).
Proof.
  intros E. unfold rounded_to_tenth. rewrite tenths_round1.
  assert (E' : (q * 10 == q' * 10)%Q) by (rewrite E; reflexivity).
  rewrite (round_half_even_comp _ _ E'). apply round_half_even_near.
Qed.

Lemma barycenter_of_is_rounded_mean (pts : list Point) :
  is_rounded_mean (barycenter_of pts) pts.
Proof.
  unfold is_rounded_mean, barycenter_of, arithmetic_mean. cbn [Point_init x y].
  rewrite !length_map.
  split; apply round1_rounded_to_tenth; rewrite Qsum_Qtotal; reflexivity.
Qed.

Lemma is_rounded_mean_Point_eq (c c' : Point) (pts : list Point) :
  Point_eq c c' = true -> is_rounded_mean c' pts -> is_rounded_mean c pts.
Proof.
  rewrite Point_eq_iff. unfold is_rounded_mean, rounded_to_tenth.
  intros [-> ->]. tauto.
Qed.

Section RecomputeKeys.

Variable hash : string -> Z.

Abbreviation same := (same_key hash).

Lemma dict_set_keys_preserved {V : Type} (d : list (Point * V)) (k c : Point) (v : V) :
  In c (Dict.keys d) -> In c (Dict.keys (Dict.set same d k v)).
Proof.
  induction d as [|[k0 v0] d IH]; cbn; [intros []|].
  destruct (same k0 k); cbn; tauto.
Qed.

Lemma dict_set_has_key {V : Type} (d : list (Point * V)) (k : Point) (v : V) :
  exists c, In c (Dict.keys (Dict.set same d k v)) /\ same c k = true.
Proof.
  induction d as [|[k0 v0] d IH]; cbn.
  - exists k. split; [left; reflexivity|apply same_key_refl].
  - destruct (same k0 k) eqn:E; cbn.
    + exists k0. auto.
    + destruct IH as (c & Hc & Hs). exists c. auto.
Qed.

Lemma dict_set_In {V : Type} (d : list (Point * V)) (k c : Point) (v v' : V) :
  In (c, v') (Dict.set same d k v) ->
  In (c, v') d \/ (v' = v /\ same c k = true).
Proof.
  induction d as [|[k0 v0] d IH]; cbn.
  - intros [[= <- <-]|[]]. right. split; [reflexivity|apply same_key_refl].
  - destruct (same k0 k) eqn:E; cbn.
    + intros [[= <- <-]|H]; auto.
    + intros [H|H]; auto. destruct (IH H); auto.
Qed.

Lemma recomputed_keys_preserved (bp result : list (Point * list Point)) (c : Point) :
  In c (Dict.keys result) -> In c (Dict.keys (recomputed hash bp result)).
Proof.
  revert result. induction bp as [|[b pts] bp IH]; intros result H; cbn; [exact H|].
  apply IH, dict_set_keys_preserved, H.
Qed.

(** Every group's recomputed barycenter is, as a key, in the result. *)
Lemma recomputed_keys (bp result : list (Point * list Point)) (b : Point) (pts : list Point) :
  In (b, pts) bp ->
  exists c, In c (Dict.keys (recomputed hash bp result)) /\ same c (barycenter_of pts) = true.
Proof.
  revert result. induction bp as [|[b0 pts0] bp IH]; intros result; [intros []|].
  intros [[= -> ->]|Hin]; cbn.
  - destruct (dict_set_has_key result (barycenter_of pts) pts) as (c & Hc & Hs).
    exists c. split; [|exact Hs]. apply recomputed_keys_preserved, Hc.
  - apply IH, Hin.
Qed.

(** Every item of the result holds the member list of a group, under a
    key that is the barycenter of that list. *)
Lemma recomputed_In (bp result : list (Point * list Point)) (c : Point) (ms : list Point) :
  In (c, ms) (recomputed hash bp result) ->
  In (c, ms) result
  \/ (same c (barycenter_of ms) = true /\ exists b, In (b, ms) bp).
Proof.
  revert result. induction bp as [|[b0 pts0] bp IH]; intros result; cbn; [auto|].
  intros H. destruct (IH _ H) as [H'|(Hs & b & Hb)].
  - cbn in H'. destruct (dict_set_In _ _ _ _ _ H') as [H''|[-> Hs]]; [auto|].
    right. split; [exact Hs|]. exists b0. left; reflexivity.
  - right. split; [exact Hs|]. exists b. right; exact Hb.
Qed.

End RecomputeKeys.


Lemma Point_eq_false_tenths (a b : Point) :
  Point_eq a b = false <->
  tenths (x a) <> tenths (x b) \/ tenths (y a) <> tenths (y b).
Proof.
  unfold Point_eq, coord_eqb. rewrite andb_false_iff, !Z.eqb_neq. reflexivity.
Qed.

(** In exact arithmetic, on a partition without empty group, the
    recomputation returns a flag and a dictionary; every group's rounded
    mean is a key of the dictionary, every item of the dictionary is the
    member list of a group under the rounded mean of that list, and the
    flag is true exactly when, for some group, the recomputed barycenter
    and the group's key differ in a coordinate. *)
Lemma find_barycenters_exact_means (hash : string -> Z) (bp : list (Point * list Point)) :
  (forall b pts, In (b, pts) bp -> pts <> []) ->
  exists (changed : bool) (result : list (Point * list Point)),
    _find_barycenters hash bp = Return (changed, result)
    /\ (forall b pts, In (b, pts) bp ->
          exists c, In c (Dict.keys result) /\ is_rounded_mean c pts)
    /\ (forall c ms, In (c, ms) result ->
          is_rounded_mean c ms /\ exists b, In (b, ms) bp)
    /\ (changed = true <->
        exists b pts new_b,
          In (b, pts) bp /\ _find_barycenter pts = Return new_b
          /\ (tenths (x b) <> tenths (x new_b) \/ tenths (y b) <> tenths (y new_b))).
Proof.
  intros Hne. exists (some_changed bp), (recomputed hash bp []).
  split; [|split; [|split]].
  - apply find_barycenters_returns. intros [b pts] Hin. cbn. eauto.
  - intros b pts Hin. destruct (recomputed_keys hash bp [] b pts Hin) as (c & Hc & Hs).
    exists c. split; [exact Hc|].
    apply (is_rounded_mean_Point_eq c (barycenter_of pts)).
    + apply same_key_Point_eq with hash, Hs.
    + apply barycenter_of_is_rounded_mean.
  - intros c ms Hin. destruct (recomputed_In hash bp [] c ms Hin) as [[]|(Hs & Hb)].
    split; [|exact Hb].
    apply (is_rounded_mean_Point_eq c (barycenter_of ms)).
    + apply same_key_Point_eq with hash, Hs.
    + apply barycenter_of_is_rounded_mean.
  - rewrite some_changed_true. split.
    + intros (b & pts & Hin & H). exists b, pts, (barycenter_of pts).
      split; [exact Hin|]. split; [apply find_barycenter_nonempty; eauto|].
      apply Point_eq_false_tenths, H.
    + intros (b & pts & new_b & Hin & Hf & H). exists b, pts. split; [exact Hin|].
      rewrite find_barycenter_nonempty in Hf by eauto. injection Hf as <-.
      apply Point_eq_false_tenths, H.
Qed.

Example find_barycenters_example :
  let g1 := [Point_init (Fin 0) (Fin 0); Point_init (Fin 0) (Fin 1)] in
  let g2 := [Point_init (Fin 10) (Fin 10); Point_init (Fin 10) (Fin 11);
             Point_init (Fin 10.3) (Fin 11)] in
  _find_barycenters len_hash [(Point_init (Fin 0) (Fin 0.5), g1); (Point_init (Fin 9) (Fin 9), g2)]
  = Return (true, [(Point_init (Fin 0) (Fin 0.5), g1); (Point_init (Fin 10.1) (Fin 10.7), g2)]).
Proof. vm_compute. reflexivity. Qed.

(** ** Counting and partitioning *)

Lemma filter_nil_iff {A : Type} (f : A -> bool) (l : list A) :
  (forall a, In a l -> f a = false) -> List.filter f l = [].
Proof.
  induction l as [|a l IH]; cbn; intros H; [reflexivity|].
  rewrite (H a) by (left; reflexivity). apply IH. intros; apply H; right; assumption.
Qed.

Lemma filter_length_Permutation {A : Type} (f : A -> bool) (l l' : list A) :
  Permutation l l' -> length (List.filter f l) = length (List.filter f l').
Proof.
  induction 1 as [|a l l' HP IH|a b l|l l' l'' HP1 IH1 HP2 IH2]; cbn.
  - reflexivity.
  - destruct (f a); cbn; congruence.
  - destruct (f a), (f b); reflexivity.
  - congruence.
Qed.

(** In a list of pairwise unrelated elements, exactly one is related to
    a given [v], as soon as one is. *)
Lemma distinct_count_one (eqb : Point -> Point -> bool) (l : list Point) (v n : Point) :
  (forall a b, eqb a b = eqb b a) ->
  (forall a b c, eqb a b = true -> eqb b c = true -> eqb a c = true) ->
  distinct eqb l -> In n l -> eqb v n = true ->
  length (List.filter (eqb v) l) = 1%nat.
Proof.
  intros Hsym Htrans. induction l as [|a l IH]; intros Hd Hin Hv; [destruct Hin|].
  destruct Hd as [Ha Hd]. cbn. destruct (eqb v a) eqn:E.
  - rewrite filter_nil_iff; [reflexivity|].
    intros b Hb. destruct (eqb v b) eqn:E'; [|reflexivity].
    rewrite <- (Ha b Hb). symmetry. apply (Htrans a v b); [rewrite Hsym|]; assumption.
  - destruct Hin as [->|Hin]; [congruence|]. auto.
Qed.

Lemma concat_map_nil {A B : Type} (l : list A) : concat (map (fun _ : A => @nil B) l) = [].
Proof. induction l; cbn; auto. Qed.

(** Filtering a list by several tests, one of which exactly holds of each
    element, splits the list. *)
Lemma concat_filter_cons {A B : Type} (F : A -> B -> bool) (ns : list A) (k : B) (K : list B) :
  Permutation
    (concat (map (fun n => List.filter (F n) (k :: K)) ns))
    (repeat k (length (List.filter (fun n => F n k) ns))
     ++ concat (map (fun n => List.filter (F n) K) ns)).
Proof.
  induction ns as [|n ns IH]; cbn [map concat List.filter]; [reflexivity|].
  destruct (F n k); cbn [length repeat app].
  - rewrite IH. apply perm_skip. apply Permutation_app_swap_app.
  - rewrite IH. apply Permutation_app_swap_app.
Qed.

Lemma concat_filter_partition {A B : Type} (F : A -> B -> bool) (ns : list A) (K : list B) :
  (forall k, In k K -> length (List.filter (fun n => F n k) ns) = 1%nat) ->
  Permutation (concat (map (fun n => List.filter (F n) K) ns)) K.
Proof.
  induction K as [|k K IH]; intros H.
  - cbn. rewrite concat_map_nil. reflexivity.
  - rewrite concat_filter_cons, (H k) by (left; reflexivity). cbn.
    apply perm_skip, IH. intros; apply H; right; assumption.
Qed.

Lemma distinct_Point_eq_of_same (hash : string -> Z) (l : list Point) :
  distinct (same_key hash) l ->
  (forall a b, In a l -> In b l -> Point_eq a b = true -> a = b) ->
  distinct Point_eq l.
Proof.
  induction l as [|a l IH]; cbn; [auto|]. intros [Ha Hd] Heq. split.
  - intros b Hb. destruct (Point_eq a b) eqn:E; [|reflexivity].
    rewrite <- (Ha b Hb), <- (Heq a b); auto using same_key_refl.
  - apply IH; auto.
Qed.

Lemma distinct_Point_eq_map (h : Point -> Point) (l : list Point) :
  distinct Point_eq l ->
  (forall n, In n l -> Point_eq n (h n) = true) ->
  distinct Point_eq (map h l).
Proof.
  induction l as [|a l IH]; cbn; [auto|]. intros [Ha Hd] Hh. split; [|auto].
  intros b' Hb'. apply in_map_iff in Hb' as (b & <- & Hb).
  destruct (Point_eq (h a) (h b)) eqn:E; [|reflexivity].
  rewrite <- (Ha b Hb). symmetry.
  apply (Point_eq_trans a (h a)); [auto|].
  apply (Point_eq_trans (h a) (h b)); [exact E|].
  rewrite Point_eq_sym. auto.
Qed.

(** ** The partition the loop returns *)

(** An unchanged partition whose keys are pairwise different points has
    pairwise different recomputed barycenters. *)
Lemma unchanged_distinct (bp : list (Point * list Point)) :
  distinct Point_eq (Dict.keys bp) -> some_changed bp = false ->
  distinct Point_eq (map (fun item => barycenter_of (snd item)) bp).
Proof.
  rewrite some_changed_false.
  induction bp as [|[b pts] bp IH]; cbn; [auto|]. intros [Hb Hd] Hu. split.
  - intros c Hc. apply in_map_iff in Hc as ([b' pts'] & <- & Hin). cbn.
    destruct (Point_eq (barycenter_of pts) (barycenter_of pts')) eqn:E; [|reflexivity].
    rewrite <- (Hb b'); [|apply in_map_iff; exists (b', pts'); auto].
    symmetry. apply (Point_eq_trans b (barycenter_of pts)); [apply Hu; left; reflexivity|].
    apply (Point_eq_trans _ (barycenter_of pts')); [exact E|].
    rewrite Point_eq_sym. apply Hu. right; exact Hin.
  - apply IH; [exact Hd|]. intros; apply Hu; right; assumption.
Qed.

Section Termination.

Variable hash : string -> Z.
Variable set_iter : list Point -> list Point.
Hypothesis set_iter_perm : forall l, Permutation (set_iter l) (set_of hash l).

Abbreviation same := (same_key hash).

Lemma group_keys (a : list (Point * Point)) :
  Dict.keys (group hash set_iter a) = set_iter (Dict.values a).
Proof.
  rewrite (group_map hash set_iter set_iter_perm).
  unfold Dict.keys. rewrite map_map. apply map_id.
Qed.

Lemma group_members (a : list (Point * Point)) :
  map snd (group hash set_iter a)
  = map (members_of hash a) (set_iter (Dict.values a)).
Proof. rewrite (group_map hash set_iter set_iter_perm), map_map. reflexivity. Qed.

(** The barycenters that head the groups are pairwise different points:
    of two equal barycenters [min] only ever selects the first. *)
Lemma group_keys_distinct (pts bs : list Point) (a : list (Point * Point)) :
  _assign_barycenters hash pts bs = Return a ->
  distinct Point_eq (Dict.keys (group hash set_iter a)).
Proof.
  intros Ha. rewrite group_keys.
  apply (distinct_Point_eq_of_same hash).
  - apply set_iter_distinct, set_iter_perm.
  - intros n n' Hn Hn' E.
    apply (set_iter_In hash set_iter set_iter_perm) in Hn, Hn'.
    pose proof (assign_shape hash pts bs a Ha) as ->.
    unfold Dict.values in Hn, Hn'. rewrite map_map in Hn, Hn'. cbn in Hn, Hn'.
    apply in_map_iff in Hn as (k & <- & Hk), Hn' as (k' & <- & Hk').
    destruct bs as [|b bs]; [reflexivity|].
    assert (Hbs : b :: bs <> []) by discriminate.
    apply (first_min_Point_eq (distance2 k) (distance2 k') (set_of hash (b :: bs))).
    + intros; apply Point_eq_distance2_r; assumption.
    + intros; apply Point_eq_distance2_r; assumption.
    + apply nearest_spec, Hbs.
    + apply nearest_spec, Hbs.
    + exact E.
Qed.

(** A returned partition comes from a round in which nothing changed. *)
Lemma loop_returns_round (fuel : nat) (pts bs : list Point) (part : list (Point * list Point)) :
  kmeans_loop hash set_iter fuel pts bs = Return part ->
  exists bs' a,
    _assign_barycenters hash pts bs' = Return a
    /\ some_changed (group hash set_iter a) = false
    /\ part = recomputed hash (group hash set_iter a) [].
Proof.
  revert bs. induction fuel as [|fuel IH]; intros bs; cbn; [discriminate|].
  destruct (_assign_barycenters hash pts bs) as [a|e|] eqn:Ha; cbn; try discriminate.
  rewrite (group_recompute_returns hash set_iter set_iter_perm pts bs a Ha). cbn.
  destruct (some_changed (group hash set_iter a)) eqn:Hc; cbn.
  - apply IH.
  - intros [= <-]. eauto.
Qed.

(** In such a round every group keeps its member list and takes the
    recomputed barycenter as its key. *)
Lemma unchanged_round (pts bs : list Point) (a : list (Point * Point)) :
  _assign_barycenters hash pts bs = Return a ->
  some_changed (group hash set_iter a) = false ->
  recomputed hash (group hash set_iter a) []
  = map (fun item => (barycenter_of (snd item), snd item)) (group hash set_iter a)
  /\ distinct Point_eq (map (fun item => barycenter_of (snd item)) (group hash set_iter a)).
Proof.
  intros Ha Hc.
  assert (Hd : distinct Point_eq
                 (map (fun item => barycenter_of (snd item)) (group hash set_iter a))).
  { apply unchanged_distinct; [eapply group_keys_distinct; eauto|exact Hc]. }
  split; [|exact Hd].
  apply (recomputed_distinct hash (group hash set_iter a) []).
  cbn. apply distinct_Point_eq_same_key, Hd.
Qed.

(** The member lists of the groups split the set of the points. *)
Lemma group_members_partition (pts bs : list Point) (a : list (Point * Point)) :
  _assign_barycenters hash pts bs = Return a ->
  Permutation (concat (map snd (group hash set_iter a))) (set_of hash pts).
Proof.
  intros Ha. pose proof (group_keys_distinct pts bs a Ha) as Hd.
  rewrite group_keys in Hd. rewrite group_members.
  pose proof (assign_shape hash pts bs a Ha) as Hshape.
  assert (Hm : map (members_of hash a) (set_iter (Dict.values a))
               = map (fun n => List.filter (fun k => Point_eq (nearest hash bs k) n)
                                  (set_of hash pts))
                     (set_iter (Dict.values a))).
  { apply map_ext. intros n. rewrite Hshape.
    apply (members_of_assignment hash), set_of_distinct. }
  rewrite Hm.
  apply (concat_filter_partition (fun n k => Point_eq (nearest hash bs k) n)).
  intros k Hk.
  assert (Hv : In (nearest hash bs k) (Dict.values a)).
  { rewrite Hshape. unfold Dict.values. rewrite map_map. cbn.
    apply in_map_iff. eauto. }
  destruct (set_iter_covers hash set_iter set_iter_perm _ _ Hv) as (n & Hn & Hs).
  apply (distinct_count_one Point_eq _ (nearest hash bs k) n).
  - apply Point_eq_sym.
  - apply Point_eq_trans.
  - exact Hd.
  - exact Hn.
  - rewrite Point_eq_sym. apply same_key_Point_eq with hash, Hs.
Qed.

End Termination.

Lemma kmeans_returns_loop (hash : string -> Z) (set_iter : list Point -> list Point)
    (draws : list Q) (fuel : nat) (pts : list Point) (k : Z) (part : list (Point * list Point)) :
  kmeans hash set_iter draws fuel pts k = Return part ->
  exists bs, _choose_barycenters pts k draws = Return bs
             /\ kmeans_loop hash set_iter fuel pts bs = Return part.
Proof.
  unfold kmeans. destruct (_choose_barycenters pts k draws) as [bs| |]; cbn; try discriminate.
  eauto.
Qed.

(** The shape of a partition that the loop returns. *)
Lemma returned_partition (hash : string -> Z) (set_iter : list Point -> list Point)
    (fuel : nat) (pts bs : list Point) (part : list (Point * list Point)) :
  (forall l, Permutation (set_iter l) (set_of hash l)) ->
  kmeans_loop hash set_iter fuel pts bs = Return part ->
  exists bp : list (Point * list Point),
    part = map (fun item => (barycenter_of (snd item), snd item)) bp
    /\ distinct Point_eq (map (fun item => barycenter_of (snd item)) bp)
    /\ (forall item, In item bp -> snd item <> [])
    /\ Permutation (concat (map snd bp)) (set_of hash pts).
Proof.
  intros Hperm Hloop.
  destruct (loop_returns_round hash set_iter Hperm fuel pts bs part Hloop)
    as (bs' & a & Ha & Hc & ->).
  destruct (unchanged_round hash set_iter Hperm pts bs' a Ha Hc) as [-> Hd].
  exists (group hash set_iter a). split; [reflexivity|]. split; [exact Hd|]. split.
  - intros [n ms] Hin. cbn. eapply group_nonempty; eauto.
  - eapply group_members_partition; eauto.
Qed.

(** C4: a partition that [kmeans] returns is a fixed point of the
    recomputation: [_find_barycenters] on it returns the flag false and
    the same partition, keys and member lists. *)
Theorem kmeans_fixed_point (hash : string -> Z) (set_iter : list Point -> list Point)
    (draws : list Q) (fuel : nat) (in_points : list Point) (in_k : Z)
    (part : list (Point * list Point)) :
  (forall l, Permutation (set_iter l) (set_of hash l)) ->
  kmeans hash set_iter draws fuel in_points in_k = Return part ->
  _find_barycenters hash part = Return (false, part).
Proof.
  intros Hperm Hk.
  destruct (kmeans_returns_loop _ _ _ _ _ _ _ Hk) as (bs & _ & Hloop).
  destruct (returned_partition hash set_iter fuel in_points bs part Hperm Hloop)
    as (bp & -> & Hd & Hne & _).
  set (phi := fun item : Point * list Point => (barycenter_of (snd item), snd item)).
  rewrite find_barycenters_returns.
  - f_equal. f_equal.
    + apply some_changed_false. intros b ms Hin.
      apply in_map_iff in Hin as (item & [= <- <-] & _). apply Point_eq_refl.
    + rewrite (recomputed_distinct hash (map phi bp) []).
      * cbn. rewrite map_map. reflexivity.
      * cbn. rewrite map_map. cbn. apply distinct_Point_eq_same_key, Hd.
  - intros item Hin. apply in_map_iff in Hin as (item' & <- & Hin'). cbn. auto.
Qed.

(** C1: the member lists of a partition that [kmeans] returns hold,
    together, the set of the input points: they are a rearrangement of
    the distinct input points, so every input point is in exactly one
    list, once, no member is foreign to the input, and the lists belong to
    barycenters that are pairwise different points. *)
Theorem kmeans_coverage (hash : string -> Z) (set_iter : list Point -> list Point)
    (draws : list Q) (fuel : nat) (in_points : list Point) (in_k : Z)
    (part : list (Point * list Point)) :
  (forall l, Permutation (set_iter l) (set_of hash l)) ->
  kmeans hash set_iter draws fuel in_points in_k = Return part ->
  Permutation (concat (map snd part)) (set_of hash in_points)
  /\ (forall p, In p in_points ->
        length (List.filter (same_key hash p) (concat (map snd part))) = 1%nat)
  /\ (forall m, In m (concat (map snd part)) -> In m in_points)
  /\ distinct Point_eq (Dict.keys part).
Proof.
  intros Hperm Hk.
  destruct (kmeans_returns_loop _ _ _ _ _ _ _ Hk) as (bs & _ & Hloop).
  destruct (returned_partition hash set_iter fuel in_points bs part Hperm Hloop)
    as (bp & -> & Hd & _ & HP).
  assert (HP' : Permutation
                  (concat (map snd (map (fun item => (barycenter_of (snd item), snd item)) bp)))
                  (set_of hash in_points)).
  { rewrite map_map. cbn. exact HP. }
  split; [exact HP'|]. split; [|split].
  - intros p Hp. rewrite (filter_length_Permutation _ _ _ HP').
    destruct (set_of_covers hash in_points p Hp) as (q & Hq & Hs).
    apply (distinct_count_one (same_key hash) _ p q).
    + apply same_key_sym.
    + apply same_key_trans.
    + apply set_of_distinct.
    + exact Hq.
    + rewrite same_key_sym. exact Hs.
  - intros m Hm. apply (set_of_In hash). eapply Permutation_in; eauto.
  - unfold Dict.keys. rewrite map_map. cbn. exact Hd.
Qed.

Lemma set_of_iter_perm (hash : string -> Z) :
  forall l, Permutation (set_of hash l) (set_of hash l).
Proof. intros l. apply Permutation_refl. Qed.

Example demo_run :
  kmeans len_hash (set_of len_hash) demo_draws 5 demo_points 2 = Return demo_partition.
Proof. vm_compute. reflexivity. Qed.

Lemma kmeans_fixed_point_witness :
  (forall l, Permutation (set_of len_hash l) (set_of len_hash l))
  /\ kmeans len_hash (set_of len_hash) demo_draws 5 demo_points 2 = Return demo_partition
  /\ _find_barycenters len_hash demo_partition = Return (false, demo_partition).
Proof.
  assert (H : kmeans len_hash (set_of len_hash) demo_draws 5 demo_points 2
              = Return demo_partition) by (vm_compute; reflexivity).
  split; [apply set_of_iter_perm|]. split; [exact H|].
  exact (kmeans_fixed_point len_hash (set_of len_hash) demo_draws 5 demo_points 2
           demo_partition (set_of_iter_perm len_hash) H).
Defined.

Lemma kmeans_coverage_witness :
  (forall l, Permutation (set_of len_hash l) (set_of len_hash l))
  /\ kmeans len_hash (set_of len_hash) demo_draws 5 demo_points 2 = Return demo_partition
  /\ Permutation (concat (map snd demo_partition)) (set_of len_hash demo_points)
  /\ (forall p, In p demo_points ->
        length (List.filter (same_key len_hash p) (concat (map snd demo_partition))) = 1%nat)
  /\ (forall m, In m (concat (map snd demo_partition)) -> In m demo_points)
  /\ distinct Point_eq (Dict.keys demo_partition).
Proof.
  assert (H : kmeans len_hash (set_of len_hash) demo_draws 5 demo_points 2
              = Return demo_partition) by (vm_compute; reflexivity).
  split; [apply set_of_iter_perm|]. split; [exact H|].
  exact (kmeans_coverage len_hash (set_of len_hash) demo_draws 5 demo_points 2
           demo_partition (set_of_iter_perm len_hash) H).
Defined.

(** ** [_choose_barycenters] *)

(** A draw between the bounds, rounded, is between the bounds. *)
Lemma uniform_round_bounds (lo hi : Z) (u : Q) :
  lo <= hi -> (0 <= u)%Q -> (u <= 1)%Q ->
  lo <= tenths (round1 (uniform lo hi u)) <= hi.
Proof.
  intros Hlh Hu0 Hu1. unfold uniform. rewrite tenths_round1.
  rewrite Zle_Qle in Hlh.
  apply round_half_even_bounds.
  all: set (L := inject_Z lo) in *; set (H := inject_Z hi) in *; clearbody L H.
  all: assert (E : ((L / 10 + (H / 10 - L / 10) * u) * 10 == L + (H - L) * u)%Q) by field.
  all: rewrite E; nra.
Qed.

Lemma select_lookup_eq (tx ty : Z) (selected : gmap Z (gset Z)) :
  select tx ty selected !! tx = Some ({[ty]} ∪ default ∅ (selected !! tx)).
Proof.
  unfold select. rewrite lookup_alter_eq.
  destruct (selected !! tx) as [s|] eqn:E.
  - rewrite E. reflexivity.
  - rewrite lookup_insert_eq. reflexivity.
Qed.

Lemma select_lookup_ne (tx ty tx' : Z) (selected : gmap Z (gset Z)) :
  tx <> tx' -> select tx ty selected !! tx' = selected !! tx'.
Proof.
  intros H. unfold select. rewrite lookup_alter_ne by exact H.
  destruct (selected !! tx); [reflexivity|]. apply lookup_insert_ne, H.
Qed.

Lemma select_mono (tx ty tx' ty' : Z) (selected : gmap Z (gset Z)) :
  ty' ∈ default ∅ (selected !! tx') -> ty' ∈ default ∅ (select tx ty selected !! tx').
Proof.
  intros H. destruct (Z.eq_dec tx tx') as [<-|Hne].
  - rewrite select_lookup_eq. cbn. set_solver.
  - rewrite select_lookup_ne by exact Hne. exact H.
Qed.

Lemma select_new (tx ty : Z) (selected : gmap Z (gset Z)) :
  ty ∈ default ∅ (select tx ty selected !! tx).
Proof. rewrite select_lookup_eq. cbn. set_solver. Qed.

Lemma choose_inv_step (x_min x_max y_min y_max : Z) (u v : Q)
    (selected : gmap Z (gset Z)) (_result : list Point) :
  x_min <= x_max -> y_min <= y_max ->
  (0 <= u)%Q -> (u <= 1)%Q -> (0 <= v)%Q -> (v <= 1)%Q ->
  choose_inv x_min x_max y_min y_max selected _result ->
  let cx := round1 (uniform x_min x_max u) in
  let cy := round1 (uniform y_min y_max v) in
  tenths cy ∉ default ∅ (selected !! tenths cx) ->
  choose_inv x_min x_max y_min y_max
    (select (tenths cx) (tenths cy) selected)
    (_result ++ [Point_init (to_float cx) (to_float cy)]).
Proof.
  intros Hx Hy Hu0 Hu1 Hv0 Hv1 (Hd & Hbox & Hsel) cx cy Hnew.
  assert (Hc : Point_init (to_float cx) (to_float cy) = mkPoint cx cy)
    by (unfold Point_init; rewrite !round1_to_float; reflexivity).
  rewrite Hc. split; [|split].
  - apply distinct_app. split; [exact Hd|]. split; [cbn; split; [intros ? []|exact I]|].
    intros a b Ha [<-|[]].
    destruct (Point_eq a (mkPoint cx cy)) eqn:E; [|reflexivity].
    apply Point_eq_iff in E as [E1 E2]. cbn [x y] in E1, E2.
    exfalso. apply Hnew. rewrite <- E1, <- E2. apply Hsel, Ha.
  - intros c Hin. apply in_app_or in Hin as [Hin|[<-|[]]]; [auto|]. cbn [x y].
    split; apply uniform_round_bounds; assumption.
  - intros c Hin. apply in_app_or in Hin as [Hin|[<-|[]]].
    + apply select_mono, Hsel, Hin.
    + cbn [x y]. apply select_new.
Qed.

Lemma choose_loop_spec (x_min x_max y_min y_max _in_k : Z) (draws : list Q) :
  x_min <= x_max -> y_min <= y_max ->
  (forall selected _result r,
     Forall (fun u => 0 <= u /\ u <= 1)%Q draws ->
     choose_inv x_min x_max y_min y_max selected _result ->
     choose_loop x_min x_max y_min y_max _in_k draws selected _result = Return r ->
     choose_post x_min x_max y_min y_max _in_k r)
  /\ (forall u0 selected _result r,
     Forall (fun u => 0 <= u /\ u <= 1)%Q (u0 :: draws) ->
     choose_inv x_min x_max y_min y_max selected _result ->
     choose_loop x_min x_max y_min y_max _in_k (u0 :: draws) selected _result = Return r ->
     choose_post x_min x_max y_min y_max _in_k r).
Proof.
  intros Hx Hy. induction draws as [|v draws [IH1 IH2]].
  - split; intros; discriminate.
  - split; [apply IH2|].
    intros u selected _result r HF Hinv.
    apply Forall_cons in HF as [[Hu0 Hu1] HF]. apply Forall_cons in HF as [[Hv0 Hv1] HF].
    cbn [choose_loop].
    set (cx := round1 (uniform x_min x_max u)).
    set (cy := round1 (uniform y_min y_max v)).
    destruct (bool_decide (tenths cy ∈ default ∅ (selected !! tenths cx))) eqn:E.
    + apply IH1; assumption.
    + apply bool_decide_eq_false in E.
      pose proof (choose_inv_step x_min x_max y_min y_max u v selected _result
                    Hx Hy Hu0 Hu1 Hv0 Hv1 Hinv E) as Hinv'.
      fold cx cy in Hinv'. fold (select (tenths cx) (tenths cy) selected).
      destruct (Z.eqb_spec
                  (Z.of_nat (length (_result ++ [Point_init (to_float cx) (to_float cy)])))
                  _in_k) as [Hk|Hk].
      * intros [= <-]. destruct Hinv' as (Hd & Hbox & _). repeat split; auto; apply Hbox; auto.
      * apply IH1; assumption.
Qed.



(** * The module in binary64 arithmetic *)

(** ** Floats that are numbers *)

Lemma shr_1_nonneg (mrs : shr_record) : 0 <= shr_m mrs -> 0 <= shr_m (shr_1 mrs).
Proof.
  destruct mrs as [m r s]. cbn [shr_m].
  destruct m as [|[p|p|]|p]; cbn; lia.
Qed.

Lemma iter_shr_1_nonneg (p : positive) (mrs : shr_record) :
  0 <= shr_m mrs -> 0 <= shr_m (SpecFloat.iter_pos shr_1 p mrs).
Proof.
  revert mrs. induction p as [p IH|p IH|]; intros mrs H; cbn.
  - apply IH, IH, shr_1_nonneg, H.
  - apply IH, IH, H.
  - apply shr_1_nonneg, H.
Qed.

Lemma shr_fexp_nonneg (m e : Z) (l : location) :
  0 <= m -> 0 <= shr_m (fst (shr_fexp Binary64.prec Binary64.emax m e l)).
Proof.
  intros H. unfold shr_fexp, shr.
  assert (H0 : 0 <= shr_m (shr_record_of_loc m l)) by (destruct l as [|[| |]]; exact H).
  destruct (_ - e) as [|p|p]; cbn [fst]; auto using iter_shr_1_nonneg.
Qed.

Lemma round_nearest_even_nonneg (m : Z) (l : location) :
  0 <= m -> 0 <= round_nearest_even m l.
Proof.
  intros H. destruct l as [|[| |]]; cbn; try lia. destruct (Z.even m); lia.
Qed.

(** Rounding a mantissa that is not negative gives a number of the sign
    asked for. *)
Lemma binary_round_aux_signed (sx : bool) (mx ex : Z) (lx : location) :
  0 <= mx ->
  Binary64.signed sx (binary_round_aux Binary64.prec Binary64.emax sx mx ex lx).
Proof.
  intros H. unfold binary_round_aux.
  pose proof (shr_fexp_nonneg mx ex lx H) as H1.
  destruct (shr_fexp Binary64.prec Binary64.emax mx ex lx) as [mrs' e']. cbn [fst] in H1.
  pose proof (shr_fexp_nonneg _ e' loc_Exact
                (round_nearest_even_nonneg _ (loc_of_shr_record mrs') H1)) as H2.
  destruct (shr_fexp Binary64.prec Binary64.emax _ e' loc_Exact) as [mrs'' e''].
  cbn [fst] in H2.
  destruct (shr_m mrs'') as [|m|m]; [reflexivity| |lia].
  destruct (e'' <=? _); reflexivity.
Qed.

Lemma binary_round_signed (sx : bool) (mx : positive) (ex : Z) :
  Binary64.signed sx (binary_round Binary64.prec Binary64.emax sx mx ex).
Proof.
  unfold binary_round. destruct (shl_align mx ex _) as [mz ez].
  apply binary_round_aux_signed. lia.
Qed.

Lemma signed_not_nan (s : bool) (f : Binary64.float64) :
  Binary64.signed s f -> Binary64.is_nan f = false.
Proof. destruct f; cbn; tauto. Qed.

Lemma binary_normalize_not_nan (m e : Z) (szero : bool) :
  Binary64.is_nan (binary_normalize Binary64.prec Binary64.emax m e szero) = false.
Proof.
  destruct m as [|m|m]; cbn [binary_normalize]; [reflexivity| |];
    eapply signed_not_nan, binary_round_signed.
Qed.

(** The difference of two finite floats is a number. *)
Lemma fsub_not_nan (a b : Binary64.float64) :
  Binary64.is_finite a = true -> Binary64.is_finite b = true ->
  Binary64.is_nan (Binary64.fsub a b) = false.
Proof.
  unfold Binary64.fsub.
  destruct a as [sa|sa| |sa ma ea], b as [sb|sb| |sb mb eb]; try discriminate; intros _ _.
  - destruct sa, sb; reflexivity.
  - reflexivity.
  - reflexivity.
  - cbn [SFsub]. apply binary_normalize_not_nan.
Qed.

(** The square of a number is a number that is not negative. *)
Lemma fmul_self_signed (d : Binary64.float64) :
  Binary64.is_nan d = false -> Binary64.signed false (Binary64.fmul d d).
Proof.
  unfold Binary64.fmul. destruct d as [s|s| |s m e]; try discriminate; intros _; cbn [SFmul].
  - destruct s; reflexivity.
  - destruct s; reflexivity.
  - replace (xorb s s) with false by (destruct s; reflexivity).
    apply binary_round_aux_signed. lia.
Qed.

Lemma fadd_signed (a b : Binary64.float64) :
  Binary64.signed false a -> Binary64.signed false b ->
  Binary64.signed false (Binary64.fadd a b).
Proof.
  unfold Binary64.fadd.
  destruct a as [sa|sa| |sa ma ea], b as [sb|sb| |sb mb eb]; cbn [Binary64.signed];
    try tauto; intros -> ->; try reflexivity.
  cbn [SFadd cond_Zopp]. cbn [Z.add binary_normalize]. apply binary_round_signed.
Qed.

Lemma fsqrt_signed (a : Binary64.float64) :
  Binary64.signed false a -> Binary64.signed false (Binary64.fsqrt a).
Proof.
  unfold Binary64.fsqrt.
  destruct a as [sa|sa| |sa ma ea]; cbn [Binary64.signed]; try tauto; intros ->;
    try reflexivity.
  cbn [SFsqrt]. unfold SFsqrt_core_binary.
  set (e' := Z.min _ _). set (m' := match ea - 2 * e' with Z0 => _ | _ => _ end).
  assert (Hm : 0 <= m').
  { subst m'. destruct (ea - 2 * e'); try lia. apply Z.shiftl_nonneg. lia. }
  pose proof (Z.sqrtrem_spec m' Hm) as Hs.
  destruct (Z.sqrtrem m') as [q r].
  apply binary_round_aux_signed. lia.
Qed.

(** The distance that binary64 arithmetic computes between two points
    with finite coordinates is a number, and it is not negative. *)
Lemma euclid_signed (p q : Point) :
  Binary64.finite_point p = true -> Binary64.finite_point q = true ->
  Binary64.signed false (Binary64.euclid p q).
Proof.
  unfold Binary64.finite_point. rewrite !andb_true_iff. intros [Hx Hy] [Hx' Hy'].
  unfold Binary64.euclid.
  apply fsqrt_signed, fadd_signed; apply fmul_self_signed, fsub_not_nan; assumption.
Qed.

Lemma euclid_not_nan (p q : Point) :
  Binary64.finite_point p = true -> Binary64.finite_point q = true ->
  Binary64.is_nan (Binary64.euclid p q) = false.
Proof. intros Hp Hq. eapply signed_not_nan, euclid_signed; assumption. Qed.

(** ** The order of the floats *)

Lemma fltb_rank (a b : Binary64.float64) :
  Binary64.is_nan a = false -> Binary64.is_nan b = false ->
  Binary64.fltb a b = true <-> Binary64.lex_lt (Binary64.rank a) (Binary64.rank b).
Proof.
  unfold Binary64.fltb, SFltb, Binary64.lex_lt.
  destruct a as [sa|sa| |sa ma ea], b as [sb|sb| |sb mb eb]; try discriminate;
    intros _ _; try (destruct sa); try (destruct sb); cbn;
    try (split; [discriminate|lia]); try (split; [lia|reflexivity]).
  - change (Pos.compare_cont Eq ma mb) with (Pos.compare ma mb).
    destruct (Z.compare_spec ea eb), (Pos.compare_spec ma mb); cbn;
      split; intros; try discriminate; try reflexivity; lia.
  - change (Pos.compare_cont Eq ma mb) with (Pos.compare ma mb).
    destruct (Z.compare_spec ea eb), (Pos.compare_spec ma mb); cbn;
      split; intros; try discriminate; try reflexivity; lia.
Qed.

Lemma fleb_rank (a b : Binary64.float64) :
  Binary64.is_nan a = false -> Binary64.is_nan b = false ->
  Binary64.fleb a b = true <-> ~ Binary64.lex_lt (Binary64.rank b) (Binary64.rank a).
Proof.
  unfold Binary64.fleb, SFleb, Binary64.lex_lt.
  destruct a as [sa|sa| |sa ma ea], b as [sb|sb| |sb mb eb]; try discriminate;
    intros _ _; try (destruct sa); try (destruct sb); cbn;
    try (split; [discriminate|lia]); try (split; [lia|reflexivity]).
  - change (Pos.compare_cont Eq ma mb) with (Pos.compare ma mb).
    destruct (Z.compare_spec ea eb), (Pos.compare_spec ma mb); cbn;
      split; intros; try discriminate; try reflexivity; lia.
  - change (Pos.compare_cont Eq ma mb) with (Pos.compare ma mb).
    destruct (Z.compare_spec ea eb), (Pos.compare_spec ma mb); cbn;
      split; intros; try discriminate; try reflexivity; lia.
Qed.

Lemma lex_lt_irrefl (a : Z * Z * Z) : ~ Binary64.lex_lt a a.
Proof. destruct a as [[a1 a2] a3]. cbn. lia. Qed.

Lemma lex_lt_trans (a b c : Z * Z * Z) :
  Binary64.lex_lt a b -> Binary64.lex_lt b c -> Binary64.lex_lt a c.
Proof. destruct a as [[a1 a2] a3], b as [[b1 b2] b3], c as [[c1 c2] c3]. cbn. lia. Qed.

Lemma lex_lt_le_trans (a b c : Z * Z * Z) :
  Binary64.lex_lt a b -> ~ Binary64.lex_lt c b -> Binary64.lex_lt a c.
Proof. destruct a as [[a1 a2] a3], b as [[b1 b2] b3], c as [[c1 c2] c3]. cbn. lia. Qed.

Lemma fleb_refl (a : Binary64.float64) :
  Binary64.is_nan a = false -> Binary64.fleb a a = true.
Proof. intros Ha. apply fleb_rank; auto. apply lex_lt_irrefl. Qed.

Lemma fltb_fleb_trans (a b c : Binary64.float64) :
  Binary64.is_nan a = false -> Binary64.is_nan b = false -> Binary64.is_nan c = false ->
  Binary64.fltb a b = true -> Binary64.fleb b c = true -> Binary64.fltb a c = true.
Proof.
  intros Ha Hb Hc Hab Hbc. apply fltb_rank in Hab; auto. apply fleb_rank in Hbc; auto.
  apply fltb_rank; auto. eapply lex_lt_le_trans; eauto.
Qed.

Lemma fltb_fleb (a b : Binary64.float64) :
  Binary64.is_nan a = false -> Binary64.is_nan b = false ->
  Binary64.fltb a b = true -> Binary64.fleb a b = true.
Proof.
  intros Ha Hb Hab. apply fltb_rank in Hab; auto. apply fleb_rank; auto.
  intros H. apply (lex_lt_irrefl (Binary64.rank a)). eapply lex_lt_trans; eauto.
Qed.

Lemma fltb_false_fleb (a b : Binary64.float64) :
  Binary64.is_nan a = false -> Binary64.is_nan b = false ->
  Binary64.fltb a b = false -> Binary64.fleb b a = true.
Proof.
  intros Ha Hb Hab. apply fleb_rank; auto. intros H.
  apply fltb_rank in H; auto. congruence.
Qed.

(** A float that is strictly less is not greater or equal. *)
Lemma fltb_not_fleb (a b : Binary64.float64) :
  Binary64.is_nan a = false -> Binary64.is_nan b = false ->
  Binary64.fltb a b = true -> Binary64.fleb b a = false.
Proof.
  intros Ha Hb Hab. destruct (Binary64.fleb b a) eqn:E; [|reflexivity].
  apply fltb_rank in Hab; auto. apply fleb_rank in E; auto. contradiction.
Qed.

(** ** [Point.distance] in binary64 *)

Lemma of_coord_tenths (c c' : coord) :
  tenths c = tenths c' ->
  Binary64.of_coord c = Binary64.of_coord c'
  \/ exists s s', Binary64.of_coord c = S754_zero s /\ Binary64.of_coord c' = S754_zero s'.
Proof.
  destruct c as [|t], c' as [|t']; cbn [tenths]; intros E.
  - left; reflexivity.
  - subst t'. right. exists true, false. split; reflexivity.
  - subst t. right. exists false, true. split; reflexivity.
  - subst t'. left; reflexivity.
Qed.

(** The square of a difference does not see the sign of a zero operand. *)
Lemma fsub_zero_r (a : Binary64.float64) (s s' : bool) :
  Binary64.is_finite (Binary64.fsub a (S754_zero s))
  = Binary64.is_finite (Binary64.fsub a (S754_zero s'))
  /\ Binary64.fmul (Binary64.fsub a (S754_zero s)) (Binary64.fsub a (S754_zero s))
     = Binary64.fmul (Binary64.fsub a (S754_zero s')) (Binary64.fsub a (S754_zero s')).
Proof. destruct a as [sa|sa| |sa ma ea], s, s'; try destruct sa; split; reflexivity. Qed.

Lemma fsub_zero_l (b : Binary64.float64) (s s' : bool) :
  Binary64.is_finite (Binary64.fsub (S754_zero s) b)
  = Binary64.is_finite (Binary64.fsub (S754_zero s') b)
  /\ Binary64.fmul (Binary64.fsub (S754_zero s) b) (Binary64.fsub (S754_zero s) b)
     = Binary64.fmul (Binary64.fsub (S754_zero s') b) (Binary64.fsub (S754_zero s') b).
Proof. destruct b as [sb|sb| |sb mb eb], s, s'; try destruct sb; split; reflexivity. Qed.

Lemma fsub_coord_r (a : Binary64.float64) (c c' : coord) :
  tenths c = tenths c' ->
  Binary64.is_finite (Binary64.fsub a (Binary64.of_coord c))
  = Binary64.is_finite (Binary64.fsub a (Binary64.of_coord c'))
  /\ Binary64.fmul (Binary64.fsub a (Binary64.of_coord c)) (Binary64.fsub a (Binary64.of_coord c))
     = Binary64.fmul (Binary64.fsub a (Binary64.of_coord c'))
         (Binary64.fsub a (Binary64.of_coord c')).
Proof.
  intros E. destruct (of_coord_tenths c c' E) as [->|(s & s' & -> & ->)];
    [split; reflexivity|apply fsub_zero_r].
Qed.

Lemma fsub_coord_l (b : Binary64.float64) (c c' : coord) :
  tenths c = tenths c' ->
  Binary64.is_finite (Binary64.fsub (Binary64.of_coord c) b)
  = Binary64.is_finite (Binary64.fsub (Binary64.of_coord c') b)
  /\ Binary64.fmul (Binary64.fsub (Binary64.of_coord c) b) (Binary64.fsub (Binary64.of_coord c) b)
     = Binary64.fmul (Binary64.fsub (Binary64.of_coord c') b)
         (Binary64.fsub (Binary64.of_coord c') b).
Proof.
  intros E. destruct (of_coord_tenths c c' E) as [->|(s & s' & -> & ->)];
    [split; reflexivity|apply fsub_zero_l].
Qed.

(** Equal points are at the same computed distance from any point. *)
Lemma euclid_Point_eq_r (p a b : Point) :
  Point_eq a b = true ->
  Binary64.euclid p a = Binary64.euclid p b
  /\ Binary64.overflows p a = Binary64.overflows p b.
Proof.
  rewrite Point_eq_iff. intros [Ex Ey]. unfold Binary64.euclid, Binary64.overflows.
  destruct (fsub_coord_r (Binary64.of_coord (x p)) _ _ Ex) as [-> ->].
  destruct (fsub_coord_r (Binary64.of_coord (y p)) _ _ Ey) as [-> ->].
  split; reflexivity.
Qed.

Lemma euclid_Point_eq_l (p q b : Point) :
  Point_eq p q = true ->
  Binary64.euclid p b = Binary64.euclid q b
  /\ Binary64.overflows p b = Binary64.overflows q b.
Proof.
  rewrite Point_eq_iff. intros [Ex Ey]. unfold Binary64.euclid, Binary64.overflows.
  destruct (fsub_coord_l (Binary64.of_coord (x b)) _ _ Ex) as [-> ->].
  destruct (fsub_coord_l (Binary64.of_coord (y b)) _ _ Ey) as [-> ->].
  split; reflexivity.
Qed.

(** [Point.distance] raises [OverflowError] when a square overflows, and
    returns the computed Euclidean distance otherwise. *)
Lemma distance_outcome (p q : Point) :
  Binary64.distance p q
  = if Binary64.overflows p q then Raise OverflowError
    else Return (Binary64.euclid p q).
Proof.
  unfold Binary64.distance, Binary64.overflows, Binary64.euclid, Binary64.pow2.
  set (dx := Binary64.fsub (Binary64.of_coord (x p)) (Binary64.of_coord (x q))).
  set (dy := Binary64.fsub (Binary64.of_coord (y p)) (Binary64.of_coord (y q))).
  destruct (Binary64.is_finite dx && Binary64.is_infinite (Binary64.fmul dx dx));
    cbn; [reflexivity|].
  destruct (Binary64.is_finite dy && Binary64.is_infinite (Binary64.fmul dy dy));
    reflexivity.
Qed.

Example distance_3_4_binary64 :
  Binary64.distance (Point_init (Fin 0) (Fin 0)) (Point_init (Fin 3) (Fin 4))
  = Return (Binary64.of_int 5).
Proof. vm_compute. reflexivity. Qed.

(** ** [min] over floats *)

Lemma min_step_first_least (rest seen : list (Point * Binary64.float64))
    (best : Point * Binary64.float64) :
  (forall kv, In kv (seen ++ rest) -> Binary64.is_nan (snd kv) = false) ->
  (exists i : nat,
     seen !! i = Some best
     /\ (forall kv, In kv seen -> Binary64.fleb (snd best) (snd kv) = true)
     /\ (forall j kv, (j < i)%nat -> seen !! j = Some kv ->
           Binary64.fltb (snd best) (snd kv) = true)) ->
  let best' :=
    fold_left (fun best kv' => if Binary64.fltb (snd kv') (snd best) then kv' else best)
      rest best in
  exists i : nat,
    (seen ++ rest) !! i = Some best'
    /\ (forall kv, In kv (seen ++ rest) -> Binary64.fleb (snd best') (snd kv) = true)
    /\ (forall j kv, (j < i)%nat -> (seen ++ rest) !! j = Some kv ->
          Binary64.fltb (snd best') (snd kv) = true).
Proof.
  revert seen best. induction rest as [|kv rest IH]; intros seen best Hnan Hinv; cbn.
  - rewrite app_nil_r. exact Hinv.
  - replace (seen ++ kv :: rest) with ((seen ++ [kv]) ++ rest) in *
      by (rewrite <- app_assoc; reflexivity).
    apply IH; [exact Hnan|].
    destruct Hinv as (i & Hi & Hmin & Hfirst).
    pose proof (lookup_lt_Some _ _ _ Hi) as Hlt.
    assert (Hseen : forall kv', In kv' seen -> Binary64.is_nan (snd kv') = false).
    { intros kv' H. apply Hnan. apply in_or_app. left. apply in_or_app. left. exact H. }
    assert (Hkv : Binary64.is_nan (snd kv) = false).
    { apply Hnan. apply in_or_app. left. apply in_or_app. right. left. reflexivity. }
    assert (Hbest : Binary64.is_nan (snd best) = false).
    { apply Hseen. apply list_elem_of_In. eapply list_elem_of_lookup_2. exact Hi. }
    destruct (Binary64.fltb (snd kv) (snd best)) eqn:Hc.
    + exists (length seen). split; [|split].
      * rewrite lookup_app_r, Nat.sub_diag by lia. reflexivity.
      * intros kv' Hin. apply in_app_or in Hin as [Hin|[<-|[]]].
        -- apply fltb_fleb; auto.
           apply (fltb_fleb_trans _ (snd best)); auto.
        -- apply fleb_refl. exact Hkv.
      * intros j kv' Hj Hl. rewrite lookup_app_l in Hl by lia.
        apply list_elem_of_lookup_2, list_elem_of_In in Hl.
        apply (fltb_fleb_trans _ (snd best)); auto.
    + exists i. split; [|split].
      * rewrite lookup_app_l by lia. exact Hi.
      * intros kv' Hin. apply in_app_or in Hin as [Hin|[<-|[]]]; auto.
        apply fltb_false_fleb; auto.
      * intros j kv' Hj Hl. rewrite lookup_app_l in Hl by lia. eauto.
Qed.

(** [min] over a non-empty dictionary of numbers returns its first least
    key. *)
Lemma py_min_first_least (g : Point -> Binary64.float64) (B : list Point) :
  B <> [] ->
  (forall b, In b B -> Binary64.is_nan (g b) = false) ->
  exists c,
    Binary64.py_min (map (fun b => (b, g b)) B) = Return c
    /\ Binary64.first_least g B c.
Proof.
  destruct B as [|b0 B]; [congruence|]. intros _ Hnan. cbn.
  eexists. split; [reflexivity|].
  pose proof (min_step_first_least (map (fun b => (b, g b)) B) [(b0, g b0)] (b0, g b0)) as H.
  destruct H as (i & Hi & Hmin & Hfirst).
  { intros kv Hin.
    change ([(b0, g b0)] ++ map (fun b => (b, g b)) B)
      with (map (fun b => (b, g b)) (b0 :: B)) in Hin.
    apply in_map_iff in Hin as (b & <- & Hb). apply Hnan, Hb. }
  { exists 0%nat. split; [reflexivity|]. split.
    - intros kv [<-|[]]. apply fleb_refl, Hnan. left; reflexivity.
    - intros j kv Hj. lia. }
  set (best := fold_left _ _ _) in *.
  change ([(b0, g b0)] ++ map (fun b => (b, g b)) B)
    with (map (fun b => (b, g b)) (b0 :: B)) in *.
  rewrite list_lookup_fmap in Hi.
  destruct ((b0 :: B) !! i) as [c|] eqn:Hc; [|discriminate].
  cbn in Hi. injection Hi as Hi. rewrite <- Hi in *. cbn [fst snd] in *.
  exists i. split; [exact Hc|]. split.
  - intros b Hb. apply (Hmin (b, g b)). apply in_map_iff. eauto.
  - intros j b Hj Hb. apply (Hfirst j (b, g b)); auto.
    rewrite list_lookup_fmap, Hb. reflexivity.
Qed.

Lemma first_least_In (g : Point -> Binary64.float64) (B : list Point) (c : Point) :
  Binary64.first_least g B c -> In c B.
Proof. intros (i & Hi & _). apply list_elem_of_In. eapply list_elem_of_lookup_2; eauto. Qed.

Section Assign64.

Variable hash : string -> Z.

Abbreviation same := (same_key hash).

(** The first least member of the set of barycenters is the first least
    element of the list of barycenters. *)
Lemma first_least_set_of (g : Point -> Binary64.float64) (bs : list Point) (c : Point) :
  (forall a b, same a b = true -> g a = g b) ->
  Binary64.first_least g (set_of hash bs) c -> Binary64.first_least g bs c.
Proof.
  intros Hg (i & Hi & Hmin & Hfirst).
  destruct (set_of_first hash _ _ _ Hi) as (k & Hk & Hbefore).
  exists k. split; [exact Hk|]. split.
  - intros b Hb. destruct (set_of_covers hash bs b Hb) as (q & Hq & Hs).
    rewrite <- (Hg _ _ Hs). auto.
  - intros j b Hj Hb. destruct (Hbefore _ _ Hj Hb) as (i' & q & Hi' & Hq & Hs).
    rewrite <- (Hg _ _ Hs). eauto.
Qed.

(** A loop that fills a dictionary from a list of keys, each value
    computed by a call that returns. *)
Lemma foldM_dict_set_map {V : Type} (f : Point -> res V) (g : Point -> V)
    (l A : list Point) :
  (forall b, In b l -> f b = Return (g b)) ->
  (forall k b, same k b = true -> g b = g k) ->
  foldM (fun d b => v ← f b; Return (Dict.set same d b v)) l (map (fun k => (k, g k)) A)
  = Return (map (fun k => (k, g k)) (fold_left (set_add hash) l A)).
Proof.
  intros Hf Hg. revert A. induction l as [|b l IH]; intros A; cbn; [reflexivity|].
  rewrite (Hf b) by (left; reflexivity). cbn.
  rewrite (dict_set_map hash) by auto.
  apply IH. intros b' Hb'. apply Hf. right. exact Hb'.
Qed.

(** The same loop when a call raises and the others return or raise the
    same exception. *)
Lemma foldM_dict_set_raise {V : Type} (f : Point -> res V) (e : exn)
    (l : list Point) (d : list (Point * V)) :
  (forall b, In b l -> (exists v, f b = Return v) \/ f b = Raise e) ->
  (exists b, In b l /\ f b = Raise e) ->
  foldM (fun d b => v ← f b; Return (Dict.set same d b v)) l d = Raise e.
Proof.
  revert d. induction l as [|b l IH]; intros d Hf (b0 & Hb0 & Hr); [destruct Hb0|]. cbn.
  destruct (Hf b (or_introl eq_refl)) as [[v Hv]|Hv]; rewrite Hv; cbn; [|reflexivity].
  apply IH.
  - intros b' Hb'. apply Hf. right. exact Hb'.
  - destruct Hb0 as [->|Hb0]; [congruence|eauto].
Qed.

Lemma distance_returns_or_overflows (p b : Point) :
  (exists v, Binary64.distance p b = Return v)
  \/ Binary64.distance p b = Raise OverflowError.
Proof. rewrite distance_outcome. destruct (Binary64.overflows p b); eauto. Qed.

(** The row of distances of a point, when no square overflows: one item
    for each member of the set of barycenters. *)
Lemma distances_of_returns (p : Point) (bs : list Point) :
  (forall b, In b bs -> Binary64.overflows p b = false) ->
  Binary64.distances_of hash p bs
  = Return (map (fun b => (b, Binary64.euclid p b)) (set_of hash bs)).
Proof.
  intros H. unfold Binary64.distances_of, set_of.
  apply (foldM_dict_set_map (Binary64.distance p) (Binary64.euclid p) bs []).
  - intros b Hb. rewrite distance_outcome, (H b Hb). reflexivity.
  - intros k b Hs. symmetry. apply euclid_Point_eq_r, same_key_Point_eq with hash, Hs.
Qed.

Lemma distances_of_raises (p : Point) (bs : list Point) :
  (exists b, In b bs /\ Binary64.overflows p b = true) ->
  Binary64.distances_of hash p bs = Raise OverflowError.
Proof.
  intros (b & Hb & Ho). unfold Binary64.distances_of.
  apply foldM_dict_set_raise.
  - intros b' _. apply distance_returns_or_overflows.
  - exists b. split; [exact Hb|]. rewrite distance_outcome, Ho. reflexivity.
Qed.

Lemma distances_of_returns_or_overflows (p : Point) (bs : list Point) :
  (exists v, Binary64.distances_of hash p bs = Return v)
  \/ Binary64.distances_of hash p bs = Raise OverflowError.
Proof.
  destruct (existsb (Binary64.overflows p) bs) eqn:E.
  - right. apply distances_of_raises. apply existsb_exists in E. exact E.
  - left. eexists. apply distances_of_returns. intros b Hb.
    destruct (Binary64.overflows p b) eqn:Ho; [|reflexivity].
    assert (existsb (Binary64.overflows p) bs = true) by (apply existsb_exists; eauto).
    congruence.
Qed.

Lemma py_min_nearest (bs : list Point) (p : Point) :
  bs <> [] ->
  Binary64.py_min (map (fun b => (b, Binary64.euclid p b)) (set_of hash bs))
  = Return (Binary64.nearest hash bs p).
Proof.
  intros Hbs. unfold Binary64.nearest.
  pose proof (set_of_nonempty hash bs Hbs) as Hne.
  destruct (set_of hash bs) as [|b0 B]; [congruence|]. reflexivity.
Qed.

(** The barycenter selected for a point is the first of the list at the
    least computed distance. *)
Lemma nearest_first_least (bs : list Point) (p : Point) :
  bs <> [] ->
  (forall b, In b bs -> Binary64.is_nan (Binary64.euclid p b) = false) ->
  Binary64.first_least (Binary64.euclid p) bs (Binary64.nearest hash bs p).
Proof.
  intros Hbs Hnan. apply first_least_set_of.
  { intros a b H. apply euclid_Point_eq_r, same_key_Point_eq with hash, H. }
  destruct (py_min_first_least (Binary64.euclid p) (set_of hash bs)) as (c & Hc & Hl).
  { apply set_of_nonempty, Hbs. }
  { intros b Hb. apply Hnan, (set_of_In hash), Hb. }
  rewrite py_min_nearest in Hc by exact Hbs. injection Hc as <-. exact Hl.
Qed.

Lemma nearest_same_key (bs : list Point) (p q : Point) :
  same p q = true -> Binary64.nearest hash bs q = Binary64.nearest hash bs p.
Proof.
  intros H. unfold Binary64.nearest.
  replace (map (fun b => (b, Binary64.euclid q b)) (set_of hash bs))
    with (map (fun b => (b, Binary64.euclid p b)) (set_of hash bs)); [reflexivity|].
  apply map_ext. intros b. f_equal.
  apply euclid_Point_eq_l, same_key_Point_eq with hash, H.
Qed.

Lemma foldM_assign_nearest (bs K A : list Point) :
  bs <> [] -> distinct same (A ++ K) ->
  foldM
    (fun result '(_point, dist) =>
       b ← Binary64.py_min dist; Return (Dict.set same result _point b))
    (map (fun p => (p, map (fun b => (b, Binary64.euclid p b)) (set_of hash bs))) K)
    (map (fun p => (p, Binary64.nearest hash bs p)) A)
  = Return (map (fun p => (p, Binary64.nearest hash bs p)) (A ++ K)).
Proof.
  intros Hbs. revert A. induction K as [|k K IH]; intros A Hd; cbn.
  - rewrite app_nil_r. reflexivity.
  - rewrite (py_min_nearest bs k Hbs). cbn.
    rewrite (dict_set_fresh hash).
    + change [(k, Binary64.nearest hash bs k)]
        with (map (fun p => (p, Binary64.nearest hash bs p)) [k]).
      rewrite <- map_app.
      replace (A ++ k :: K) with ((A ++ [k]) ++ K) in * by (rewrite <- app_assoc; reflexivity).
      apply IH. exact Hd.
    + intros k' Hk'. unfold Dict.keys in Hk'. rewrite map_map in Hk'. cbn in Hk'.
      rewrite map_id in Hk'.
      apply distinct_app in Hd as (_ & _ & Hd). apply Hd; [exact Hk'|left; reflexivity].
Qed.

(** With at least one barycenter and no square that overflows, the
    assignment returns: it maps every member of the set of points to the
    barycenter [min] selects. *)
Lemma assign_returns_nearest (pts bs : list Point) :
  bs <> [] ->
  (forall p b, In p pts -> In b bs -> Binary64.overflows p b = false) ->
  Binary64._assign_barycenters hash pts bs
  = Return (map (fun p => (p, Binary64.nearest hash bs p)) (set_of hash pts)).
Proof.
  intros Hbs Hno. unfold Binary64._assign_barycenters.
  pose proof (foldM_dict_set_map
                (fun p => Binary64.distances_of hash p bs)
                (fun p => map (fun b => (b, Binary64.euclid p b)) (set_of hash bs))
                pts []) as Hf.
  cbn [map] in Hf. rewrite Hf.
  - cbn. apply (foldM_assign_nearest bs (set_of hash pts) [] Hbs). apply set_of_distinct.
  - intros p Hp. apply distances_of_returns. intros b Hb. apply Hno; assumption.
  - intros k b Hs. apply map_ext. intros c. f_equal.
    symmetry. apply euclid_Point_eq_l, same_key_Point_eq with hash, Hs.
Qed.

(** When the square of some difference overflows, the assignment raises
    [OverflowError]. *)
Lemma assign_raises_overflow (pts bs : list Point) :
  (exists p b, In p pts /\ In b bs /\ Binary64.overflows p b = true) ->
  Binary64._assign_barycenters hash pts bs = Raise OverflowError.
Proof.
  intros (p & b & Hp & Hb & Ho). unfold Binary64._assign_barycenters.
  rewrite (foldM_dict_set_raise (fun p => Binary64.distances_of hash p bs) OverflowError).
  - reflexivity.
  - intros p' _. apply distances_of_returns_or_overflows.
  - exists p. split; [exact Hp|]. apply distances_of_raises. eauto.
Qed.

End Assign64.

(** C6, as stated, fails in two ways.  The point (0.3, 0) is at the
    Euclidean distance 0.2 from both (0.5, 0) and (0.1, 0), and (0.5, 0)
    comes first; the floats [0.3 - 0.5] and [0.3 - 0.1] differ in their
    last bit, and the assignment gives the point the second barycenter.
    And for the point (1e200, 0) and the barycenter (0, 0) the assignment
    maps nothing: [pow] raises [OverflowError]. *)
Lemma assign_barycenters_tie_second :
  let p := Point_init (Fin 0.3) (Fin 0) in
  let b1 := Point_init (Fin 0.5) (Fin 0) in
  let b2 := Point_init (Fin 0.1) (Fin 0) in
  distance p b1 = distance p b2
  /\ Binary64._assign_barycenters len_hash [p] [b1; b2] = Return [(p, b2)]
  /\ Binary64._assign_barycenters len_hash
       [Point_init (Fin (inject_Z (10 ^ 200))) (Fin 0)] [Point_init (Fin 0) (Fin 0)]
     = Raise OverflowError.
Proof.
  intros p b1 b2. split; [|split].
  - unfold distance.
    replace (distance2 p b1) with (distance2 p b2) by (vm_compute; reflexivity).
    reflexivity.
  - vm_compute. reflexivity.
  - vm_compute. reflexivity.
Qed.

(** C6, amended: with at least one barycenter, and points and
    barycenters whose coordinates are finite floats, the assignment
    raises [OverflowError] when the square of some difference of
    coordinates overflows; otherwise it returns a dictionary whose keys
    are the points of the list, and that gives every point the first
    barycenter of the list at the least distance, the distances being
    those that binary64 arithmetic computes.  The outcome is a function
    of the two lists (and of the interpreter's hash, through the identity
    of keys). *)
Theorem assign_barycenters_first_least (hash : string -> Z) (pts bs : list Point) :
  bs <> [] ->
  (forall p, In p pts \/ In p bs -> Binary64.finite_point p = true) ->
  ((exists p b, In p pts /\ In b bs /\ Binary64.overflows p b = true)
   /\ Binary64._assign_barycenters hash pts bs = Raise OverflowError)
  \/ ((forall p b, In p pts -> In b bs -> Binary64.overflows p b = false)
      /\ exists a : list (Point * Point),
           Binary64._assign_barycenters hash pts bs = Return a
           /\ Dict.keys a = set_of hash pts
           /\ forall p, In p pts ->
                exists (c : Point) (i : nat),
                  Dict.get (same_key hash) a p = Some c
                  /\ bs !! i = Some c
                  /\ (forall b, In b bs ->
                        Binary64.fleb (Binary64.euclid p c) (Binary64.euclid p b) = true)
                  /\ (forall j b, (j < i)%nat -> bs !! j = Some b ->
                        Binary64.fltb (Binary64.euclid p c) (Binary64.euclid p b) = true)).
Proof.
  intros Hbs Hfin.
  destruct (existsb (fun p => existsb (Binary64.overflows p) bs) pts) eqn:E.
  - left. apply existsb_exists in E as (p & Hp & E).
    apply existsb_exists in E as (b & Hb & E).
    split; [eauto|]. apply assign_raises_overflow. eauto.
  - right.
    assert (Hno : forall p b, In p pts -> In b bs -> Binary64.overflows p b = false).
    { intros p b Hp Hb. destruct (Binary64.overflows p b) eqn:Ho; [|reflexivity].
      assert (existsb (fun p => existsb (Binary64.overflows p) bs) pts = true); [|congruence].
      apply existsb_exists. exists p. split; [exact Hp|].
      apply existsb_exists. eauto. }
    split; [exact Hno|]. eexists. split; [apply assign_returns_nearest; assumption|].
    split.
    { unfold Dict.keys. rewrite map_map. cbn. apply map_id. }
    intros p Hp.
    destruct (nearest_first_least hash bs p Hbs) as (i & Hi & Hmin & Hfirst).
    { intros b Hb. apply euclid_not_nan; apply Hfin; auto. }
    exists (Binary64.nearest hash bs p), i. split; [|split; [exact Hi|split]].
    + apply (dict_get_map_same hash (Binary64.nearest hash bs)).
      * intros k Hk. apply nearest_same_key. rewrite same_key_sym. exact Hk.
      * apply set_of_covers. exact Hp.
    + exact Hmin.
    + exact Hfirst.
Qed.

Lemma assign_barycenters_first_least_witness :
  let pts := [Point_init (Fin 0.3) (Fin 0); Point_init (Fin 10) (Fin 11)] in
  let bs := [Point_init (Fin 0.5) (Fin 0); Point_init (Fin 0.1) (Fin 0)] in
  bs <> []
  /\ (forall p, In p pts \/ In p bs -> Binary64.finite_point p = true)
  /\ (((exists p b, In p pts /\ In b bs /\ Binary64.overflows p b = true)
       /\ Binary64._assign_barycenters len_hash pts bs = Raise OverflowError)
      \/ ((forall p b, In p pts -> In b bs -> Binary64.overflows p b = false)
          /\ exists a : list (Point * Point),
               Binary64._assign_barycenters len_hash pts bs = Return a
               /\ Dict.keys a = set_of len_hash pts
               /\ forall p, In p pts ->
                    exists (c : Point) (i : nat),
                      Dict.get (same_key len_hash) a p = Some c
                      /\ bs !! i = Some c
                      /\ (forall b, In b bs ->
                            Binary64.fleb (Binary64.euclid p c) (Binary64.euclid p b) = true)
                      /\ (forall j b, (j < i)%nat -> bs !! j = Some b ->
                            Binary64.fltb (Binary64.euclid p c) (Binary64.euclid p b)
                            = true))).
Proof.
  intros pts bs.
  assert (H : bs <> []) by discriminate.
  assert (Hfin : forall p, In p pts \/ In p bs -> Binary64.finite_point p = true).
  { intros p [[<-|[<-|[]]]|[<-|[<-|[]]]]; vm_compute; reflexivity. }
  split; [exact H|]. split; [exact Hfin|].
  exact (assign_barycenters_first_least len_hash pts bs H Hfin).
Defined.

(** ** Centroid recomputation in binary64 *)




Section Recompute64.

Variable hash : string -> Z.
Variable sum : list Binary64.float64 -> Binary64.float64.

Abbreviation same := (same_key hash).


Lemma find_barycenter_empty64 : Binary64._find_barycenter sum [] = Raise ZeroDivisionError.
Proof. reflexivity. Qed.







End Recompute64.



(** The mean of 0 and 0.7 is the float 0.35, which is below the decimal
    0.35, and the mean of 0 and 0.9 is the float 0.45, which is above the
    decimal 0.45: the recomputed barycenter is (0.3, 0.5), where exact
    arithmetic and ties to even give (0.4, 0.4). *)
Example find_barycenters_tie :
  let g := [Point_init (Fin 0) (Fin 0); Point_init (Fin 0.7) (Fin 0.9)] in
  Binary64._find_barycenters len_hash Binary64.sum_left [(Point_init (Fin 0.4) (Fin 0.4), g)]
  = Return (true, [(Point_init (Fin 0.3) (Fin 0.5), g)])
  /\ _find_barycenters len_hash [(Point_init (Fin 0.4) (Fin 0.4), g)]
     = Return (false, [(Point_init (Fin 0.4) (Fin 0.4), g)]).
Proof. vm_compute. split; reflexivity. Qed.

(** * Further properties of the module *)

(** ** Bounding ranges *)

Lemma x_min_max_by (l : list Point) : x_min_max l = min_max_by (fun p => tenths (x p)) l.
Proof. reflexivity. Qed.

Lemma y_min_max_by (l : list Point) : y_min_max l = min_max_by (fun p => tenths (y p)) l.
Proof. reflexivity. Qed.

Lemma min_max_by_fold (proj : Point -> Z) (l : list Point) (lo hi : Z) :
  fold_left
    (fun '(c_min, c_max) point =>
       let c_min := if c_min >? proj point then proj point else c_min in
       let c_max := if c_max <? proj point then proj point else c_max in
       (c_min, c_max))
    l (lo, hi)
  = (fold_left Z.min (map proj l) lo, fold_left Z.max (map proj l) hi).
Proof.
  revert lo hi. induction l as [|p l IH]; intros lo hi; cbn; [reflexivity|].
  rewrite IH. f_equal; f_equal.
  - destruct (Z.gtb_spec lo (proj p)); lia.
  - destruct (Z.ltb_spec hi (proj p)); lia.
Qed.

Lemma fold_min_spec (zs : list Z) (a : Z) :
  let m := fold_left Z.min zs a in
  m <= a /\ (forall z, In z zs -> m <= z) /\ (m = a \/ In m zs).
Proof.
  revert a. induction zs as [|z zs IH]; intros a; cbn.
  - split; [lia|]. split; [intros ? []|left; reflexivity].
  - destruct (IH (Z.min a z)) as (H1 & H2 & H3). split; [lia|]. split.
    + intros z' [<-|Hz']; [lia|auto].
    + destruct H3 as [H3|H3]; [|right; right; exact H3].
      rewrite H3. destruct (Z.min_spec a z) as [[_ ->]|[_ ->]];
        [left; reflexivity|right; left; reflexivity].
Qed.

Lemma fold_max_spec (zs : list Z) (a : Z) :
  let m := fold_left Z.max zs a in
  a <= m /\ (forall z, In z zs -> z <= m) /\ (m = a \/ In m zs).
Proof.
  revert a. induction zs as [|z zs IH]; intros a; cbn.
  - split; [lia|]. split; [intros ? []|left; reflexivity].
  - destruct (IH (Z.max a z)) as (H1 & H2 & H3). split; [lia|]. split.
    + intros z' [<-|Hz']; [lia|auto].
    + destruct H3 as [H3|H3]; [|right; right; exact H3].
      rewrite H3. destruct (Z.max_spec a z) as [[_ ->]|[_ ->]];
        [right; left; reflexivity|left; reflexivity].
Qed.

(** What the loop returns: a range that holds 0 and every coordinate, each
    end of which is 0 or the coordinate of a point; an end is the
    coordinate of a point exactly when some point lies on its side of 0. *)
Lemma min_max_by_spec (proj : Point -> Z) (l : list Point) :
  let '(lo, hi) := min_max_by proj l in
  lo <= 0 <= hi
  /\ (forall p, In p l -> lo <= proj p <= hi)
  /\ (lo = 0 \/ exists p, In p l /\ lo = proj p)
  /\ (hi = 0 \/ exists p, In p l /\ hi = proj p)
  /\ ((exists p, In p l /\ lo = proj p) <-> exists p, In p l /\ proj p <= 0)
  /\ ((exists p, In p l /\ hi = proj p) <-> exists p, In p l /\ 0 <= proj p).
Proof.
  unfold min_max_by. rewrite min_max_by_fold.
  destruct (fold_min_spec (map proj l) 0) as (L1 & L2 & L3).
  destruct (fold_max_spec (map proj l) 0) as (H1 & H2 & H3).
  set (lo := fold_left Z.min (map proj l) 0) in *.
  set (hi := fold_left Z.max (map proj l) 0) in *.
  assert (Hin : forall p, In p l -> In (proj p) (map proj l)) by (intros; apply in_map; assumption).
  assert (Hlo : lo = 0 \/ exists p, In p l /\ lo = proj p).
  { destruct L3 as [L3|L3]; [left; exact L3|right].
    apply in_map_iff in L3 as (p & E & Hp). eauto. }
  assert (Hhi : hi = 0 \/ exists p, In p l /\ hi = proj p).
  { destruct H3 as [H3|H3]; [left; exact H3|right].
    apply in_map_iff in H3 as (p & E & Hp). eauto. }
  split; [lia|]. split; [|split; [exact Hlo|split; [exact Hhi|split]]].
  - intros p Hp. split; [apply L2|apply H2]; auto.
  - split.
    + intros (p & Hp & E). exists p. split; [exact Hp|lia].
    + intros (p & Hp & E). destruct Hlo as [Hlo|Hlo]; [|exact Hlo].
      exists p. split; [exact Hp|]. specialize (L2 _ (Hin p Hp)). lia.
  - split.
    + intros (p & Hp & E). exists p. split; [exact Hp|lia].
    + intros (p & Hp & E). destruct Hhi as [Hhi|Hhi]; [|exact Hhi].
      exists p. split; [exact Hp|]. specialize (H2 _ (Hin p Hp)). lia.
Qed.

(** X1: [x_min_max] returns a range that holds 0 and the abscissa of every
    point; each end is 0 or the abscissa of some point. *)
Theorem x_min_max_range (in_points : list Point) :
  let '(x_min, x_max) := x_min_max in_points in
  x_min <= 0 <= x_max
  /\ (forall p, In p in_points -> x_min <= tenths (x p) <= x_max)
  /\ (x_min = 0 \/ exists p, In p in_points /\ x_min = tenths (x p))
  /\ (x_max = 0 \/ exists p, In p in_points /\ x_max = tenths (x p)).
Proof.
  rewrite x_min_max_by.
  pose proof (min_max_by_spec (fun p => tenths (x p)) in_points) as H.
  destruct (min_max_by _ in_points) as [lo hi]. tauto.
Qed.

(** X2: [y_min_max] returns a range that holds 0 and the ordinate of every
    point; each end is 0 or the ordinate of some point. *)
Theorem y_min_max_range (in_points : list Point) :
  let '(y_min, y_max) := y_min_max in_points in
  y_min <= 0 <= y_max
  /\ (forall p, In p in_points -> y_min <= tenths (y p) <= y_max)
  /\ (y_min = 0 \/ exists p, In p in_points /\ y_min = tenths (y p))
  /\ (y_max = 0 \/ exists p, In p in_points /\ y_max = tenths (y p)).
Proof.
  rewrite y_min_max_by.
  pose proof (min_max_by_spec (fun p => tenths (y p)) in_points) as H.
  destruct (min_max_by _ in_points) as [lo hi]. tauto.
Qed.

(** X3: the lower end that [x_min_max] (or [y_min_max]) returns is the
    least coordinate exactly when some coordinate is at most 0, and the
    upper end is the greatest coordinate exactly when some coordinate is at
    least 0; otherwise that end is the seed 0. *)
Theorem min_max_exact_iff (in_points : list Point) :
  ((exists p, In p in_points /\ fst (x_min_max in_points) = tenths (x p))
     <-> exists p, In p in_points /\ tenths (x p) <= 0)
  /\ ((exists p, In p in_points /\ snd (x_min_max in_points) = tenths (x p))
     <-> exists p, In p in_points /\ 0 <= tenths (x p))
  /\ ((exists p, In p in_points /\ fst (y_min_max in_points) = tenths (y p))
     <-> exists p, In p in_points /\ tenths (y p) <= 0)
  /\ ((exists p, In p in_points /\ snd (y_min_max in_points) = tenths (y p))
     <-> exists p, In p in_points /\ 0 <= tenths (y p)).
Proof.
  rewrite x_min_max_by, y_min_max_by.
  pose proof (min_max_by_spec (fun p => tenths (x p)) in_points) as Hx.
  pose proof (min_max_by_spec (fun p => tenths (y p)) in_points) as Hy.
  destruct (min_max_by (fun p => tenths (x p)) in_points) as [a b].
  destruct (min_max_by (fun p => tenths (y p)) in_points) as [c d].
  cbn [fst snd]. tauto.
Qed.

(** ** Distance, construction and hashing *)

Lemma distance2_sym (a b : Point) : distance2 a b = distance2 b a.
Proof. unfold distance2. ring. Qed.

Lemma distance2_zero_iff (a b : Point) : distance2 a b = 0 <-> Point_eq a b = true.
Proof. rewrite Point_eq_iff. unfold distance2. split; [intros H; split; nia|intros [-> ->]; ring]. Qed.

Lemma binary_round_aux_opp (s : bool) (m e : Z) (l : location) :
  binary_round_aux Binary64.prec Binary64.emax (negb s) m e l
  = SFopp (binary_round_aux Binary64.prec Binary64.emax s m e l).
Proof.
  unfold binary_round_aux.
  destruct (shr_fexp Binary64.prec Binary64.emax m e l) as [mrs' e'].
  destruct (shr_fexp Binary64.prec Binary64.emax _ e' loc_Exact) as [mrs'' e''].
  destruct (shr_m mrs'') as [|p|p]; try reflexivity.
  destruct (e'' <=? _); reflexivity.
Qed.

Lemma binary_round_opp (s : bool) (m : positive) (e : Z) :
  binary_round Binary64.prec Binary64.emax (negb s) m e
  = SFopp (binary_round Binary64.prec Binary64.emax s m e).
Proof.
  unfold binary_round. destruct (shl_align m e _) as [mz ez].
  apply binary_round_aux_opp.
Qed.

(** Exchanging the operands of a difference changes its sign, or leaves
    a zero. *)
Lemma fsub_swap (a b : Binary64.float64) :
  Binary64.fsub b a = SFopp (Binary64.fsub a b)
  \/ exists s s', Binary64.fsub a b = S754_zero s /\ Binary64.fsub b a = S754_zero s'.
Proof.
  unfold Binary64.fsub.
  destruct a as [sa|sa| |sa ma ea], b as [sb|sb| |sb mb eb]; cbn [SFsub SFopp];
    try (left; reflexivity);
    try (left; destruct sa, sb; reflexivity);
    try (left; destruct sa; reflexivity);
    try (left; destruct sb; reflexivity).
  - right. destruct sa, sb; eauto.
  - rewrite (Z.min_comm eb ea).
    set (za := cond_Zopp sa _). set (zb := cond_Zopp sb _).
    replace (zb - za) with (- (za - zb)) by lia.
    destruct (za - zb) as [|p|p]; cbn [Z.opp binary_normalize].
    + right. eauto.
    + left. apply (binary_round_opp false).
    + left. change (- Z.neg p) with (Z.pos p). cbn [binary_normalize].
      change true with (negb false). rewrite binary_round_opp.
      destruct (binary_round Binary64.prec Binary64.emax false p (Z.min ea eb));
        cbn; rewrite ?negb_involutive; reflexivity.
Qed.

Lemma fmul_opp_self (d : Binary64.float64) :
  Binary64.is_finite (SFopp d) = Binary64.is_finite d
  /\ Binary64.fmul (SFopp d) (SFopp d) = Binary64.fmul d d.
Proof. destruct d as [s|s| |s m e]; split; try reflexivity; destruct s; reflexivity. Qed.

Lemma fsub_swap_square (a b : Binary64.float64) :
  Binary64.is_finite (Binary64.fsub b a) = Binary64.is_finite (Binary64.fsub a b)
  /\ Binary64.fmul (Binary64.fsub b a) (Binary64.fsub b a)
     = Binary64.fmul (Binary64.fsub a b) (Binary64.fsub a b).
Proof.
  destruct (fsub_swap a b) as [->|(s & s' & -> & ->)]; [apply fmul_opp_self|].
  split; [reflexivity|]. destruct s, s'; reflexivity.
Qed.

Lemma euclid_sym (a b : Point) :
  Binary64.euclid a b = Binary64.euclid b a
  /\ Binary64.overflows a b = Binary64.overflows b a.
Proof.
  unfold Binary64.euclid, Binary64.overflows.
  destruct (fsub_swap_square (Binary64.of_coord (x a)) (Binary64.of_coord (x b))) as [-> ->].
  destruct (fsub_swap_square (Binary64.of_coord (y a)) (Binary64.of_coord (y b))) as [-> ->].
  split; reflexivity.
Qed.

(** The difference of a finite float and itself is a zero. *)
Lemma fsub_self (a : Binary64.float64) :
  Binary64.is_finite a = true -> exists s, Binary64.fsub a a = S754_zero s.
Proof.
  unfold Binary64.fsub. destruct a as [s|s| |s m e]; try discriminate; intros _.
  - destruct s; eauto.
  - cbn [SFsub]. rewrite Z.sub_diag. cbn. eauto.
Qed.

Lemma euclid_self (a : Point) :
  Binary64.finite_point a = true ->
  Binary64.euclid a a = S754_zero false /\ Binary64.overflows a a = false.
Proof.
  unfold Binary64.finite_point. rewrite andb_true_iff. intros [Hx Hy].
  unfold Binary64.euclid, Binary64.overflows.
  destruct (fsub_self _ Hx) as [sx ->], (fsub_self _ Hy) as [sy ->].
  destruct sx, sy; split; reflexivity.
Qed.

(** X4: in binary64, [Point.distance] does not depend on the order of the
    two points; it raises [OverflowError] or returns; between points with
    finite coordinates what it returns is a number that is not negative,
    and it is [0.0] between equal points. *)
Theorem distance_symmetric_nonnegative (a b : Point) :
  Binary64.distance a b = Binary64.distance b a
  /\ (Binary64.distance a b = Raise OverflowError
      \/ exists d, Binary64.distance a b = Return d)
  /\ (Binary64.finite_point a = true -> Binary64.finite_point b = true ->
      (forall d, Binary64.distance a b = Return d ->
         Binary64.is_nan d = false /\ Binary64.fleb (S754_zero false) d = true)
      /\ (Point_eq a b = true -> Binary64.distance a b = Return (S754_zero false))).
Proof.
  split; [|split].
  - rewrite !distance_outcome. destruct (euclid_sym a b) as [-> ->]. reflexivity.
  - rewrite distance_outcome. destruct (Binary64.overflows a b); eauto.
  - intros Ha Hb. split.
    + intros d. rewrite distance_outcome.
      destruct (Binary64.overflows a b); [discriminate|]. intros [= <-].
      pose proof (euclid_signed a b Ha Hb) as Hs.
      destruct (Binary64.euclid a b) as [s|s| |s m e]; cbn in Hs; try contradiction;
        subst s; split; reflexivity.
    + intros He. rewrite distance_outcome.
      destruct (euclid_Point_eq_r a a b He) as [<- <-].
      destruct (euclid_self a Ha) as [-> ->]. reflexivity.
Qed.

Lemma distance_symmetric_nonnegative_witness :
  let a := Point_init (Fin 0.3) (Fin 0) in
  let b := Point_init (Fin 0.1) (Fin 2.5) in
  Binary64.finite_point a = true /\ Binary64.finite_point b = true
  /\ Binary64.distance a b = Binary64.distance b a
  /\ (Binary64.distance a b = Raise OverflowError
      \/ exists d, Binary64.distance a b = Return d)
  /\ (Binary64.finite_point a = true -> Binary64.finite_point b = true ->
      (forall d, Binary64.distance a b = Return d ->
         Binary64.is_nan d = false /\ Binary64.fleb (S754_zero false) d = true)
      /\ (Point_eq a b = true -> Binary64.distance a b = Return (S754_zero false))).
Proof.
  intros a b. split; [vm_compute; reflexivity|]. split; [vm_compute; reflexivity|].
  exact (distance_symmetric_nonnegative a b).
Defined.





(** ** More on [_assign_barycenters] *)


(** X9: when the assignment returns, its keys are the points of the list
    without repetition, in the order of their first occurrence; they are
    pairwise different keys, every point of the list is, as a key, one of
    them, and every value is one of the barycenters. *)
Theorem assign_keys_values (hash : string -> Z) (pts bs : list Point)
    (a : list (Point * Point)) :
  _assign_barycenters hash pts bs = Return a ->
  Dict.keys a = set_of hash pts
  /\ distinct (same_key hash) (Dict.keys a)
  /\ (forall p, In p pts -> exists k, In k (Dict.keys a) /\ same_key hash k p = true)
  /\ (forall p c, In (p, c) a -> In p pts /\ In c bs).
Proof.
  intros Ha. pose proof (assign_shape hash pts bs a Ha) as Hshape.
  assert (Hk : Dict.keys a = set_of hash pts).
  { rewrite Hshape. unfold Dict.keys. rewrite map_map. apply map_id. }
  split; [exact Hk|]. rewrite Hk. split; [apply set_of_distinct|].
  split; [intros p Hp; apply set_of_covers, Hp|].
  intros p c Hin. rewrite Hshape in Hin.
  apply in_map_iff in Hin as (k & [= -> <-] & Hk').
  split; [apply (set_of_In hash), Hk'|].
  destruct bs as [|b bs].
  - rewrite assign_no_barycenter in Ha. destruct pts; [destruct Hk'|discriminate].
  - eapply first_min_In, nearest_first_min. discriminate.
Qed.

Lemma assign_keys_values_witness :
  let pts := [Point_init (Fin 0) (Fin 0); Point_init (Fin 10) (Fin 11);
              Point_init (Fin 0.01) (Fin 0)] in
  let bs := [Point_init (Fin 2.5) (Fin 2.8); Point_init (Fin 7.5) (Fin 5.5)] in
  let a := [(Point_init (Fin 0) (Fin 0), Point_init (Fin 2.5) (Fin 2.8));
            (Point_init (Fin 10) (Fin 11), Point_init (Fin 7.5) (Fin 5.5))] in
  _assign_barycenters len_hash pts bs = Return a
  /\ Dict.keys a = set_of len_hash pts
  /\ distinct (same_key len_hash) (Dict.keys a).
Proof.
  intros pts bs a.
  assert (H : _assign_barycenters len_hash pts bs = Return a) by (vm_compute; reflexivity).
  split; [exact H|].
  pose proof (assign_keys_values len_hash pts bs a H) as (H1 & H2 & _).
  split; [exact H1|exact H2].
Defined.

(** ** More on [_find_barycenter] and [_find_barycenters] *)

(** [_find_barycenter] raises [ZeroDivisionError] exactly on the empty
    list, and returns on every other list. *)
Lemma find_barycenter_raises_iff (pts : list Point) :
  (_find_barycenter pts = Raise ZeroDivisionError <-> pts = [])
  /\ ((exists c, _find_barycenter pts = Return c) <-> pts <> []).
Proof.
  destruct pts as [|p pts].
  - split; split; try reflexivity; try congruence. intros [c H]. discriminate H.
  - rewrite find_barycenter_nonempty by discriminate.
    split; split; try discriminate; eauto.
Qed.

Lemma value_to_float (c : coord) : (value (to_float c) == inject_Z (tenths c) / 10)%Q.
Proof. destruct c as [|t]; cbn [to_float value tenths]; [|reflexivity]. unfold Qeq. reflexivity. Qed.

Lemma Qtotal_tenths (proj : Point -> coord) (pts : list Point) :
  (Qtotal (map (fun p => value (to_float (proj p))) pts)
   == inject_Z (Ztotal (map (fun p => tenths (proj p)) pts)) / 10)%Q.
Proof.
  unfold Qtotal, Ztotal. induction pts as [|p pts IH]; cbn [map fold_right].
  - unfold Qeq. reflexivity.
  - rewrite IH, value_to_float, inject_Z_plus. field.
Qed.

Lemma Ztotal_bounds (l : list Z) (lo hi : Z) :
  (forall z, In z l -> lo <= z <= hi) ->
  lo * Z.of_nat (length l) <= Ztotal l <= hi * Z.of_nat (length l).
Proof.
  unfold Ztotal. induction l as [|z l IH]; intros H; cbn [fold_right length]; [lia|].
  specialize (H z (or_introl eq_refl)) as Hz.
  assert (IH' : lo * Z.of_nat (length l) <= fold_right Z.add 0 l <= hi * Z.of_nat (length l))
    by (apply IH; intros; apply H; right; assumption).
  lia.
Qed.

(** The rounded mean of coordinates lies between bounds of the
    coordinates. *)
Lemma rounded_mean_bounds (proj : Point -> coord) (pts : list Point) (lo hi : Z) :
  pts <> [] ->
  (forall p, In p pts -> lo <= tenths (proj p) <= hi) ->
  lo <= tenths (round1 (Fin (Qsum (map (fun p => value (to_float (proj p))) pts)
                             / inject_Z (Z.of_nat (length pts)))))
     <= hi.
Proof.
  intros Hne Hb. rewrite tenths_round1.
  set (n := Z.of_nat (length pts)).
  set (S := Ztotal (map (fun p => tenths (proj p)) pts)).
  assert (Hn : 0 < n) by (destruct pts; [congruence|unfold n; cbn; lia]).
  assert (HnQ : (0 < inject_Z n)%Q)
    by (change 0%Q with (inject_Z 0); rewrite <- Zlt_Qlt; exact Hn).
  assert (HS : lo * n <= S <= hi * n).
  { unfold S, n. rewrite <- (length_map (fun p => tenths (proj p)) pts).
    apply Ztotal_bounds. intros z Hz. apply in_map_iff in Hz as (p & <- & Hp). auto. }
  assert (E : (Qsum (map (fun p => value (to_float (proj p))) pts) / inject_Z n * 10
               == inject_Z S / inject_Z n)%Q).
  { rewrite Qsum_Qtotal, Qtotal_tenths. fold S. field. intros C. rewrite C in HnQ.
    apply Qlt_irrefl in HnQ. exact HnQ. }
  apply round_half_even_bounds; rewrite E.
  - apply Qle_shift_div_l; [exact HnQ|]. rewrite <- inject_Z_mult, <- Zle_Qle. lia.
  - apply Qle_shift_div_r; [exact HnQ|]. rewrite <- inject_Z_mult, <- Zle_Qle. lia.
Qed.



(** The barycenter of a single point is that point. *)
Lemma find_barycenter_singleton (p : Point) :
  exists c, _find_barycenter [p] = Return c /\ Point_eq c p = true.
Proof.
  exists (barycenter_of [p]). split; [apply find_barycenter_nonempty; discriminate|].
  apply Point_eq_iff.
  pose proof (rounded_mean_bounds x [p] (tenths (x p)) (tenths (x p))) as Hx.
  pose proof (rounded_mean_bounds y [p] (tenths (y p)) (tenths (y p))) as Hy.
  unfold barycenter_of. cbn [Point_init x y].
  split; [apply Z.le_antisymm; apply Hx|apply Z.le_antisymm; apply Hy];
    try discriminate; intros q [<-|[]]; lia.
Qed.

Lemma empty_group_dec (bp : list (Point * list Point)) :
  (exists b, In (b, []) bp) \/ (forall item, In item bp -> snd item <> []).
Proof.
  induction bp as [|[b pts] bp IH].
  - right. intros ? [].
  - destruct pts as [|p pts]; [left; exists b; left; reflexivity|].
    destruct IH as [[b' Hb']|IH]; [left; exists b'; right; exact Hb'|right].
    intros item [<-|Hin]; [discriminate|auto].
Qed.

(** X11: [_find_barycenters] raises [ZeroDivisionError] exactly when some
    group of the partition is empty, and returns exactly when none is. *)
Theorem find_barycenters_raises_iff (hash : string -> Z) (bp : list (Point * list Point)) :
  (_find_barycenters hash bp = Raise ZeroDivisionError <-> exists b, In (b, []) bp)
  /\ ((exists r, _find_barycenters hash bp = Return r)
      <-> forall b pts, In (b, pts) bp -> pts <> []).
Proof.
  assert (Hraise : (exists b, In (b, []) bp) ->
                   _find_barycenters hash bp = Raise ZeroDivisionError).
  { intros H. unfold _find_barycenters.
    change (foldM (recompute_step hash) bp (false, []) = Raise ZeroDivisionError).
    apply foldM_recompute_empty, H. }
  destruct (empty_group_dec bp) as [He|Hne].
  - rewrite (Hraise He). split; split; auto.
    + intros [r Hr]. discriminate Hr.
    + intros H. destruct He as [b Hb]. exfalso. exact (H b [] Hb eq_refl).
  - rewrite (find_barycenters_returns hash bp Hne). split; split.
    + discriminate.
    + intros [b Hb]. exfalso. exact (Hne (b, []) Hb eq_refl).
    + intros _ b pts Hin. exact (Hne (b, pts) Hin).
    + eauto.
Qed.

(** ** Groups that replace one another in [_find_barycenters] *)

Section Overwrite.

Variable hash : string -> Z.

Abbreviation same := (same_key hash).

Lemma dict_set_present {V : Type} (d : list (Point * V)) (k : Point) (v : V) :
  existsb (fun k' => same k' k) (Dict.keys d) = true ->
  length (Dict.set same d k v) = length d.
Proof.
  induction d as [|[k0 v0] d IH]; cbn; [discriminate|].
  destruct (same k0 k); cbn; [reflexivity|]. intros H. rewrite IH; auto.
Qed.

Lemma recomputed_length_le (bp result : list (Point * list Point)) :
  (length (recomputed hash bp result) <= length result + length bp)%nat.
Proof.
  revert result. induction bp as [|[b pts] bp IH]; intros result; cbn; [lia|].
  etransitivity; [apply IH|].
  destruct (existsb (fun k' => same k' (barycenter_of pts)) (Dict.keys result)) eqn:E.
  - rewrite dict_set_present by exact E. lia.
  - rewrite dict_set_fresh by (apply existsb_same_false; exact E).
    rewrite length_app. cbn. lia.
Qed.

(** The result of the loop has one item for each group exactly when no
    recomputed barycenter is the same key as an earlier one or as a key
    that is already there. *)
Lemma recomputed_length_eq_iff (bp result : list (Point * list Point)) :
  length (recomputed hash bp result) = (length result + length bp)%nat
  <-> (forall k b, In k (Dict.keys result) ->
         In b (map (fun item => barycenter_of (snd item)) bp) -> same k b = false)
      /\ distinct same (map (fun item => barycenter_of (snd item)) bp).
Proof.
  revert result. induction bp as [|[b0 pts] bp IH]; intros result.
  - cbn. split; [intros _; split; [intros ? ? _ []|exact I]|lia].
  - cbn [recomputed map snd fold_left length distinct].
    change (fold_left _ bp ?r) with (recomputed hash bp r).
    destruct (existsb (fun k' => same k' (barycenter_of pts)) (Dict.keys result)) eqn:E.
    + pose proof (recomputed_length_le bp (Dict.set same result (barycenter_of pts) pts)) as Hle.
      rewrite dict_set_present in Hle by exact E. split; [lia|].
      intros [H _]. apply existsb_same_true in E as (k & Hk & Hs).
      rewrite (H k (barycenter_of pts) Hk) in Hs by (left; reflexivity). discriminate.
    + pose proof (proj1 (existsb_same_false hash _ _) E) as Hfresh.
      rewrite dict_set_fresh by exact Hfresh.
      pose proof (IH (result ++ [(barycenter_of pts, pts)])) as IH'.
      rewrite length_app in IH'. cbn [length] in IH'.
      unfold Dict.keys in IH'. rewrite map_app in IH'. cbn [map fst] in IH'.
      fold (Dict.keys result) in IH'. split.
      * intros Hlen.
        assert (Hl : length (recomputed hash bp (result ++ [(barycenter_of pts, pts)]))
                     = (length result + 1 + length bp)%nat) by lia.
        apply IH' in Hl as [H Hd]. split; [|split; [|exact Hd]].
        -- intros k b Hk [<-|Hb]; [apply Hfresh, Hk|].
           apply H; [apply in_or_app; left; exact Hk|exact Hb].
        -- intros b Hb. apply H; [apply in_or_app; right; left; reflexivity|exact Hb].
      * intros [H [H0 Hd]].
        assert (Hl : length (recomputed hash bp (result ++ [(barycenter_of pts, pts)]))
                     = (length result + 1 + length bp)%nat); [|lia].
        apply IH'. split; [|exact Hd].
        intros k b Hk Hb. apply in_app_or in Hk as [Hk|[<-|[]]].
        -- apply H; [exact Hk|right; exact Hb].
        -- apply H0, Hb.
Qed.

End Overwrite.

(** X12: when [_find_barycenters] returns, its dictionary has at most as
    many items as there are groups, each of its member lists is the list
    of some group, and it has as many items as groups exactly when the
    recomputed barycenters of the groups are pairwise different keys;
    otherwise the member list of a group is replaced by that of a later
    group. *)
Theorem find_barycenters_size (hash : string -> Z) (bp : list (Point * list Point))
    (changed : bool) (result : list (Point * list Point)) :
  _find_barycenters hash bp = Return (changed, result) ->
  (length result <= length bp)%nat
  /\ (forall c ms, In (c, ms) result -> exists b, In (b, ms) bp)
  /\ (length result = length bp
      <-> distinct (same_key hash) (map (fun item => barycenter_of (snd item)) bp)).
Proof.
  intros Hr.
  assert (Hne : forall item, In item bp -> snd item <> []).
  { destruct (empty_group_dec bp) as [He|Hne]; [|exact Hne].
    unfold _find_barycenters in Hr.
    change (foldM (recompute_step hash) bp (false, []) = Return (changed, result)) in Hr.
    rewrite foldM_recompute_empty in Hr by exact He. discriminate. }
  rewrite find_barycenters_returns in Hr by exact Hne. injection Hr as _ <-.
  split; [apply (recomputed_length_le hash bp [])|]. split.
  - intros c ms Hin. destruct (recomputed_In hash bp [] c ms Hin) as [[]|[_ H]]. exact H.
  - rewrite (recomputed_length_eq_iff hash bp []). cbn. split; [tauto|].
    intros H. split; [intros ? ? []|exact H].
Qed.

Lemma find_barycenters_size_witness :
  let g1 := [Point_init (Fin 0) (Fin 0); Point_init (Fin 0) (Fin 0.2)] in
  let g2 := [Point_init (Fin 0) (Fin 0.1)] in
  let bp := [(Point_init (Fin 0) (Fin 0), g1); (Point_init (Fin 1) (Fin 1), g2)] in
  let result := [(Point_init (Fin 0) (Fin 0.1), g2)] in
  _find_barycenters len_hash bp = Return (true, result)
  /\ (length result <= length bp)%nat
  /\ (forall c ms, In (c, ms) result -> exists b, In (b, ms) bp).
Proof.
  intros g1 g2 bp result.
  assert (H : _find_barycenters len_hash bp = Return (true, result))
    by (vm_compute; reflexivity).
  split; [exact H|].
  pose proof (find_barycenters_size len_hash bp true result H) as (H1 & H2 & _).
  split; [exact H1|exact H2].
Defined.

(** ** What [_choose_barycenters] and [kmeans] never do *)

(** The loop of [_choose_barycenters] is still running when the draws are
    used up, or it has returned a list that is not empty and has [_in_k]
    elements; it never raises. *)
Lemma choose_loop_outcome (x_min x_max y_min y_max _in_k : Z) (draws : list Q) :
  (forall selected _result,
     choose_loop x_min x_max y_min y_max _in_k draws selected _result = OutOfFuel
     \/ exists r, choose_loop x_min x_max y_min y_max _in_k draws selected _result = Return r
                  /\ Z.of_nat (length r) = _in_k /\ r <> [])
  /\ (forall u0 selected _result,
     choose_loop x_min x_max y_min y_max _in_k (u0 :: draws) selected _result = OutOfFuel
     \/ exists r, choose_loop x_min x_max y_min y_max _in_k (u0 :: draws) selected _result
                  = Return r
                  /\ Z.of_nat (length r) = _in_k /\ r <> []).
Proof.
  induction draws as [|v draws [IH1 IH2]].
  - split; intros; left; reflexivity.
  - split; [apply IH2|]. intros u selected _result. cbn [choose_loop].
    destruct (bool_decide _); [apply IH1|].
    destruct (Z.eqb_spec (Z.of_nat (length (_result ++
                [Point_init (to_float (round1 (uniform x_min x_max u)))
                            (to_float (round1 (uniform y_min y_max v)))]))) _in_k) as [Hk|Hk];
      [|apply IH1].
    right. eexists. split; [reflexivity|]. split; [exact Hk|].
    intros E. apply app_eq_nil in E as [_ E]. discriminate E.
Qed.

Lemma choose_barycenters_outcome (_in_points : list Point) (_in_k : Z) (draws : list Q) :
  _choose_barycenters _in_points _in_k draws = OutOfFuel
  \/ exists r, _choose_barycenters _in_points _in_k draws = Return r
               /\ Z.of_nat (length r) = _in_k /\ r <> [].
Proof.
  unfold _choose_barycenters.
  destruct (x_min_max _in_points) as [x_min x_max], (y_min_max _in_points) as [y_min y_max].
  apply choose_loop_outcome.
Qed.

(** X13: for [k <= 0] the initialisation never returns, whatever the
    points and however many draws it is given, and so neither does
    [kmeans]. *)
Theorem choose_barycenters_nonpositive_k (hash : string -> Z)
    (set_iter : list Point -> list Point) (in_points : list Point) (in_k : Z)
    (draws : list Q) (fuel : nat) :
  in_k <= 0 ->
  _choose_barycenters in_points in_k draws = OutOfFuel
  /\ kmeans hash set_iter draws fuel in_points in_k = OutOfFuel.
Proof.
  intros Hk.
  assert (H : _choose_barycenters in_points in_k draws = OutOfFuel).
  { destruct (choose_barycenters_outcome in_points in_k draws) as [H|(r & _ & Hlen & Hne)];
      [exact H|].
    destruct r; [congruence|]. cbn in Hlen. lia. }
  split; [exact H|]. unfold kmeans. rewrite H. reflexivity.
Qed.

Lemma choose_barycenters_nonpositive_k_witness :
  0 <= 0
  /\ _choose_barycenters demo_points 0 demo_draws = OutOfFuel
  /\ kmeans len_hash (set_of len_hash) demo_draws 5 demo_points 0 = OutOfFuel.
Proof.
  assert (H : 0 <= 0) by lia.
  split; [exact H|].
  exact (choose_barycenters_nonpositive_k len_hash (set_of len_hash) demo_points 0
           demo_draws 5 H).
Defined.

Section Loop.

Variable hash : string -> Z.
Variable set_iter : list Point -> list Point.
Hypothesis set_iter_perm : forall l, Permutation (set_iter l) (set_of hash l).


Lemma assign_values_In (pts bs : list Point) (a : list (Point * Point)) (c : Point) :
  _assign_barycenters hash pts bs = Return a -> In c (Dict.values a) -> In c bs.
Proof.
  intros Ha Hc. pose proof (assign_shape hash pts bs a Ha) as Hshape.
  rewrite Hshape in Hc. unfold Dict.values in Hc. rewrite map_map in Hc. cbn in Hc.
  apply in_map_iff in Hc as (k & <- & Hk).
  destruct bs as [|b bs].
  - rewrite assign_no_barycenter in Ha. destruct pts; [destruct Hk|discriminate].
  - eapply first_min_In, nearest_first_min. discriminate.
Qed.

Lemma assign_always_returns (pts bs : list Point) :
  pts = [] \/ bs <> [] -> exists a, _assign_barycenters hash pts bs = Return a.
Proof.
  intros [->|Hbs].
  - destruct bs; [rewrite assign_no_barycenter|rewrite assign_returns by discriminate]; eauto.
  - rewrite assign_returns by exact Hbs. eauto.
Qed.



End Loop.



(** ** Size and shape of the returned partition *)

Lemma distinct_same_key_NoDup (hash : string -> Z) (l : list Point) :
  distinct (same_key hash) l -> List.NoDup l.
Proof.
  induction l as [|a l IH]; cbn; [constructor|]. intros [Ha Hd].
  constructor; [|auto]. intros Hin. pose proof (Ha a Hin) as H.
  rewrite same_key_refl in H. discriminate H.
Qed.

Section Size.

Variable hash : string -> Z.
Variable set_iter : list Point -> list Point.
Hypothesis set_iter_perm : forall l, Permutation (set_iter l) (set_of hash l).

(** A round never has more groups than barycenters. *)
Lemma round_size (pts bs : list Point) (a : list (Point * Point)) :
  _assign_barycenters hash pts bs = Return a ->
  (length (recomputed hash (group hash set_iter a) []) <= length bs)%nat.
Proof.
  intros Ha.
  etransitivity; [apply (recomputed_length_le hash (group hash set_iter a) [])|]. cbn.
  rewrite (group_map hash set_iter set_iter_perm), length_map.
  apply NoDup_incl_length.
  - apply (distinct_same_key_NoDup hash), set_iter_distinct, set_iter_perm.
  - intros c Hc. apply (set_iter_In hash set_iter set_iter_perm) in Hc.
    eapply assign_values_In; eauto.
Qed.

Lemma kmeans_loop_size (fuel : nat) (pts bs : list Point) (part : list (Point * list Point)) :
  kmeans_loop hash set_iter fuel pts bs = Return part ->
  (length part <= length bs)%nat.
Proof.
  revert bs. induction fuel as [|fuel IH]; intros bs; cbn; [discriminate|].
  destruct (_assign_barycenters hash pts bs) as [a|e|] eqn:Ha; cbn; try discriminate.
  rewrite (group_recompute_returns hash set_iter set_iter_perm pts bs a Ha). cbn.
  pose proof (round_size pts bs a Ha) as Hle.
  destruct (negb _).
  - intros [= <-]. exact Hle.
  - intros H. apply IH in H. unfold Dict.keys in H. rewrite length_map in H. lia.
Qed.

End Size.

(** X15: a partition that [kmeans] returns has at most [k] groups; it has
    no group exactly when there is no input point. *)
Theorem kmeans_partition_size (hash : string -> Z) (set_iter : list Point -> list Point)
    (draws : list Q) (fuel : nat) (in_points : list Point) (in_k : Z)
    (part : list (Point * list Point)) :
  (forall l, Permutation (set_iter l) (set_of hash l)) ->
  kmeans hash set_iter draws fuel in_points in_k = Return part ->
  Z.of_nat (length part) <= in_k
  /\ (part = [] <-> in_points = []).
Proof.
  intros Hperm Hk.
  destruct (kmeans_returns_loop _ _ _ _ _ _ _ Hk) as (bs & Hbs & Hloop).
  split.
  - destruct (choose_barycenters_outcome in_points in_k draws) as [H|(r & H & Hlen & _)];
      rewrite H in Hbs; [discriminate|]. injection Hbs as ->.
    pose proof (kmeans_loop_size hash set_iter Hperm fuel in_points bs part Hloop). lia.
  - destruct (returned_partition hash set_iter fuel in_points bs part Hperm Hloop)
      as (bp & -> & _ & Hne & HP).
    split.
    + intros E. apply map_eq_nil in E. subst bp. cbn in HP.
      apply Permutation_nil in HP.
      destruct in_points as [|p pts]; [reflexivity|].
      exfalso. revert HP. apply set_of_nonempty. discriminate.
    + intros ->. cbn in HP. destruct bp as [|item bp]; [reflexivity|]. exfalso.
      apply Permutation_sym, Permutation_nil in HP. cbn in HP.
      apply app_eq_nil in HP as [HP _]. exact (Hne item (or_introl eq_refl) HP).
Qed.

Lemma kmeans_partition_size_witness :
  (forall l, Permutation (set_of len_hash l) (set_of len_hash l))
  /\ kmeans len_hash (set_of len_hash) demo_draws 5 demo_points 2 = Return demo_partition
  /\ Z.of_nat (length demo_partition) <= 2
  /\ (demo_partition = [] <-> demo_points = []).
Proof.
  assert (H : kmeans len_hash (set_of len_hash) demo_draws 5 demo_points 2
              = Return demo_partition) by (vm_compute; reflexivity).
  split; [apply set_of_iter_perm|]. split; [exact H|].
  exact (kmeans_partition_size len_hash (set_of len_hash) demo_draws 5 demo_points 2
           demo_partition (set_of_iter_perm len_hash) H).
Defined.

(** Fewer groups than [k] are possible: here the second of the two
    barycenters drawn, (2, 2), attracts no point. *)
Example kmeans_fewer_groups :
  kmeans len_hash (set_of len_hash) [0.25; 0.25; 1; 1]%Q 5
    [Point_init (Fin 0) (Fin 0); Point_init (Fin 2) (Fin 0); Point_init (Fin 0) (Fin 2)] 2
  = Return [(Point_init (Fin 0.7) (Fin 0.7),
             [Point_init (Fin 0) (Fin 0); Point_init (Fin 2) (Fin 0);
              Point_init (Fin 0) (Fin 2)])].
Proof. vm_compute. reflexivity. Qed.

Section Optimum.

Variable hash : string -> Z.
Variable set_iter : list Point -> list Point.
Hypothesis set_iter_perm : forall l, Permutation (set_iter l) (set_of hash l).



End Optimum.




(** ** How many barycenters the initialisation can find *)

Lemma distinct_Point_eq_NoDup (r : list Point) :
  distinct Point_eq r ->
  List.NoDup (map (fun c => (tenths (x c), tenths (y c))) r).
Proof.
  induction r as [|a r IH]; cbn [map distinct]; [constructor|]. intros [Ha Hd].
  constructor; [|auto]. intros Hin. apply in_map_iff in Hin as (b & E & Hb).
  injection E as E1 E2.
  assert (H : Point_eq a b = true) by (apply Point_eq_iff; split; congruence).
  rewrite (Ha b Hb) in H. discriminate H.
Qed.

(** Pairwise different points in a rectangle of the grid of tenths are at
    most as many as the points of the grid in the rectangle. *)
Lemma distinct_in_box_length (r : list Point) (x_lo x_hi y_lo y_hi : Z) :
  x_lo <= x_hi -> y_lo <= y_hi ->
  distinct Point_eq r ->
  (forall c, In c r -> x_lo <= tenths (x c) <= x_hi /\ y_lo <= tenths (y c) <= y_hi) ->
  Z.of_nat (length r) <= (x_hi - x_lo + 1) * (y_hi - y_lo + 1).
Proof.
  intros Hx Hy Hd Hbox.
  pose proof (NoDup_incl_length (distinct_Point_eq_NoDup r Hd)
                (l' := list_prod (seqZ x_lo (x_hi - x_lo + 1)) (seqZ y_lo (y_hi - y_lo + 1)))) as H.
  rewrite length_map, length_prod, !length_seqZ in H.
  assert (Hle : (length r <= Z.to_nat (x_hi - x_lo + 1) * Z.to_nat (y_hi - y_lo + 1))%nat).
  { apply H. intros [tx ty] Hin. apply in_map_iff in Hin as (c & [= <- <-] & Hc).
    destruct (Hbox c Hc) as [H1 H2].
    apply in_prod; apply list_elem_of_In, elem_of_seqZ; lia. }
  apply Nat2Z.inj_le in Hle. rewrite Nat2Z.inj_mul, !Z2Nat.id in Hle by lia. exact Hle.
Qed.

(** X18: with unit draws in [0, 1], the initialisation returns only when
    [k] is at most the number of points of the grid of tenths in the
    bounding ranges of the input points; for a greater [k] it never
    returns. *)
Theorem choose_barycenters_at_most_grid (_in_points : list Point) (_in_k : Z)
    (draws : list Q) (r : list Point) :
  Forall (fun u => 0 <= u /\ u <= 1)%Q draws ->
  _choose_barycenters _in_points _in_k draws = Return r ->
  _in_k <= (snd (x_min_max _in_points) - fst (x_min_max _in_points) + 1)
           * (snd (y_min_max _in_points) - fst (y_min_max _in_points) + 1).
Proof.
  intros HF. unfold _choose_barycenters.
  pose proof (x_min_max_zero _in_points) as Hx. pose proof (y_min_max_zero _in_points) as Hy.
  destruct (x_min_max _in_points) as [x_min x_max], (y_min_max _in_points) as [y_min y_max].
  cbn [fst snd] in *. intros Hr.
  destruct (choose_loop_spec x_min x_max y_min y_max _in_k draws) as [H _]; [lia|lia|].
  destruct (H ∅ [] r HF) as (Hlen & Hd & Hbox); [|exact Hr|].
  - split; [exact I|]. split; intros c [].
  - rewrite <- Hlen. apply distinct_in_box_length; [lia|lia|exact Hd|exact Hbox].
Qed.

Lemma choose_barycenters_at_most_grid_witness :
  let r := [Point_init (Fin 2.5) (Fin 2.8); Point_init (Fin 7.5) (Fin 5.5)] in
  Forall (fun u => 0 <= u /\ u <= 1)%Q demo_draws
  /\ _choose_barycenters demo_points 2 demo_draws = Return r
  /\ 2 <= (snd (x_min_max demo_points) - fst (x_min_max demo_points) + 1)
          * (snd (y_min_max demo_points) - fst (y_min_max demo_points) + 1).
Proof.
  intros r.
  assert (HF : Forall (fun u => 0 <= u /\ u <= 1)%Q demo_draws).
  { unfold demo_draws. repeat constructor; unfold Qle; cbn; lia. }
  assert (Hr : _choose_barycenters demo_points 2 demo_draws = Return r)
    by (vm_compute; reflexivity).
  split; [exact HF|]. split; [exact Hr|].
  exact (choose_barycenters_at_most_grid demo_points 2 demo_draws r HF Hr).
Defined.

(** ** The empty list of points *)

(** Between the bounds 0 and 0 every draw is 0.0. *)
Lemma uniform_zero (u : Q) : round1 (uniform 0 0 u) = Tenths 0.
Proof.
  unfold uniform, round1.
  set (q := (inject_Z 0 / 10 + (inject_Z 0 / 10 - inject_Z 0 / 10) * u)%Q).
  assert (Hq : (q == 0)%Q) by (unfold q; field).
  assert (Hr : round_half_even (q * 10) = 0).
  { assert (E : (q * 10 == inject_Z 0)%Q) by (rewrite Hq; reflexivity).
    rewrite (round_half_even_comp _ _ E). apply round_half_even_Z. }
  assert (Hs : Qle_bool 0 q = true) by (apply Qle_bool_iff; rewrite Hq; apply Qle_refl).
  cbv zeta. rewrite Hr, Hs. reflexivity.
Qed.

(** Once (0.0, 0.0) is selected, no other pair can be drawn between the
    bounds 0 and 0: the loop runs for ever. *)
Lemma choose_loop_stuck (_in_k : Z) (draws : list Q) :
  (forall selected _result,
     0 ∈ default ∅ (selected !! 0) ->
     choose_loop 0 0 0 0 _in_k draws selected _result = OutOfFuel)
  /\ (forall u0 selected _result,
     0 ∈ default ∅ (selected !! 0) ->
     choose_loop 0 0 0 0 _in_k (u0 :: draws) selected _result = OutOfFuel).
Proof.
  induction draws as [|v draws [IH1 IH2]].
  - split; intros; reflexivity.
  - split; [apply IH2|]. intros u selected _result Hin. cbn [choose_loop].
    rewrite !uniform_zero. cbn [tenths].
    rewrite bool_decide_eq_true_2 by exact Hin. apply IH1, Hin.
Qed.

Lemma choose_barycenters_empty (_in_k : Z) (u v : Q) (draws : list Q) :
  _choose_barycenters [] _in_k (u :: v :: draws)
  = if 1 =? _in_k then Return [mkPoint (Tenths 0) (Tenths 0)] else OutOfFuel.
Proof.
  unfold _choose_barycenters. cbn [x_min_max y_min_max fold_left choose_loop].
  rewrite !uniform_zero. cbn [tenths]. rewrite lookup_empty. cbn [default].
  rewrite bool_decide_eq_false_2 by set_solver.
  cbn [app length]. change (Z.of_nat 1) with 1.
  unfold Point_init. rewrite !round1_to_float.
  destruct (1 =? _in_k); [reflexivity|].
  apply choose_loop_stuck. rewrite lookup_alter_eq, lookup_insert_eq. cbn. set_solver.
Qed.

Lemma kmeans_loop_empty (hash : string -> Z) (set_iter : list Point -> list Point)
    (fuel : nat) (bs : list Point) :
  (forall l, Permutation (set_iter l) (set_of hash l)) ->
  kmeans_loop hash set_iter (S fuel) [] bs = Return [].
Proof.
  intros Hperm. cbn [kmeans_loop].
  destruct (assign_always_returns hash [] bs (or_introl eq_refl)) as [a Ha].
  pose proof (assign_shape hash [] bs a Ha) as Hshape. cbn in Hshape. subst a.
  rewrite Ha. cbn. rewrite (group_map hash set_iter Hperm). cbn [Dict.values map].
  assert (E : set_iter [] = []).
  { apply Permutation_nil. symmetry. apply (Hperm []). }
  rewrite E. reflexivity.
Qed.

(** X19: on an empty list of points [kmeans] returns only for [k = 1],
    and then the empty partition; for [k = 1] it does return, as soon as it
    has two draws and one round. *)
Theorem kmeans_empty_input (hash : string -> Z) (set_iter : list Point -> list Point) :
  (forall l, Permutation (set_iter l) (set_of hash l)) ->
  (forall draws fuel in_k part,
     kmeans hash set_iter draws fuel [] in_k = Return part -> in_k = 1 /\ part = [])
  /\ (forall u v draws fuel,
        kmeans hash set_iter (u :: v :: draws) (S fuel) [] 1 = Return []).
Proof.
  intros Hperm. split.
  - intros draws fuel in_k part Hk.
    destruct (kmeans_returns_loop _ _ _ _ _ _ _ Hk) as (bs & Hbs & Hloop).
    split.
    + destruct draws as [|u [|v draws]]; try discriminate Hbs.
      rewrite choose_barycenters_empty in Hbs.
      destruct (Z.eqb_spec 1 in_k); [congruence|discriminate].
    + destruct fuel as [|fuel]; [discriminate Hloop|].
      rewrite (kmeans_loop_empty hash set_iter fuel bs Hperm) in Hloop. congruence.
  - intros u v draws fuel. unfold kmeans. rewrite choose_barycenters_empty.
    change (1 =? 1) with true. cbv iota.
    exact (kmeans_loop_empty hash set_iter fuel [mkPoint (Tenths 0) (Tenths 0)] Hperm).
Qed.

Lemma kmeans_empty_input_witness :
  (forall l, Permutation (set_of len_hash l) (set_of len_hash l))
  /\ kmeans len_hash (set_of len_hash) demo_draws 1 [] 1 = Return [].
Proof.
  split; [apply set_of_iter_perm|].
  exact (proj2 (kmeans_empty_input len_hash (set_of len_hash) (set_of_iter_perm len_hash))
           0.25%Q 0.25%Q [0.75; 0.5]%Q 0%nat).
Defined.

(** ** A point given twice *)

Lemma set_of_app_same (hash : string -> Z) (pts : list Point) (p : Point) :
  (exists q, In q pts /\ same_key hash q p = true) ->
  set_of hash (pts ++ [p]) = set_of hash pts.
Proof.
  intros (q & Hq & Hs). rewrite set_of_app. unfold set_add.
  destruct (set_of_covers hash pts q Hq) as (q' & Hq' & Hs').
  assert (E : existsb (fun k => same_key hash k p) (set_of hash pts) = true).
  { apply existsb_same_true. exists q'. split; [exact Hq'|].
    eapply same_key_trans; eauto. }
  rewrite E. reflexivity.
Qed.

(** The assignment sees the list of points through its set only. *)
Lemma assign_set_of (hash : string -> Z) (pts pts' bs : list Point) :
  set_of hash pts = set_of hash pts' ->
  _assign_barycenters hash pts bs = _assign_barycenters hash pts' bs.
Proof.
  intros E. destruct bs as [|b bs].
  - rewrite !assign_no_barycenter.
    destruct pts as [|p pts], pts' as [|p' pts']; try reflexivity; exfalso.
    + symmetry in E. revert E. apply set_of_nonempty. discriminate.
    + revert E. apply set_of_nonempty. discriminate.
  - rewrite !assign_returns by discriminate. rewrite E. reflexivity.
Qed.

Lemma kmeans_loop_set_of (hash : string -> Z) (set_iter : list Point -> list Point)
    (fuel : nat) (pts pts' bs : list Point) :
  set_of hash pts = set_of hash pts' ->
  kmeans_loop hash set_iter fuel pts bs = kmeans_loop hash set_iter fuel pts' bs.
Proof.
  intros E. revert bs. induction fuel as [|fuel IH]; intros bs; cbn; [reflexivity|].
  rewrite (assign_set_of hash pts pts' bs E).
  destruct (_assign_barycenters hash pts' bs) as [a|e|]; cbn; try reflexivity.
  destruct (_find_barycenters hash (group hash set_iter a)) as [[ch r]|e|]; cbn;
    try reflexivity.
  destruct (negb ch); [reflexivity|apply IH].
Qed.

Lemma min_max_by_app_same (proj : Point -> Z) (pts : list Point) (p q : Point) :
  In q pts -> proj q = proj p ->
  min_max_by proj (pts ++ [p]) = min_max_by proj pts.
Proof.
  intros Hq E. pose proof (min_max_by_spec proj pts) as H.
  unfold min_max_by in *. rewrite fold_left_app.
  destruct (fold_left _ pts (0, 0)) as [lo hi]. cbn.
  destruct H as (_ & Hb & _). specialize (Hb q Hq). rewrite E in Hb.
  destruct (Z.gtb_spec lo (proj p)), (Z.ltb_spec hi (proj p)); try lia. reflexivity.
Qed.

(** X20: an input point that is given once more, at the end of the list,
    changes nothing: the bounding ranges, the barycenters drawn and the
    result of [kmeans] are the same; a repeated point counts once in the
    mean of its group. *)
Theorem kmeans_repeated_point (hash : string -> Z) (set_iter : list Point -> list Point)
    (draws : list Q) (fuel : nat) (in_points : list Point) (p : Point) (in_k : Z) :
  (exists q, In q in_points /\ same_key hash q p = true) ->
  x_min_max (in_points ++ [p]) = x_min_max in_points
  /\ y_min_max (in_points ++ [p]) = y_min_max in_points
  /\ _choose_barycenters (in_points ++ [p]) in_k draws
     = _choose_barycenters in_points in_k draws
  /\ kmeans hash set_iter draws fuel (in_points ++ [p]) in_k
     = kmeans hash set_iter draws fuel in_points in_k.
Proof.
  intros Hdup. pose proof Hdup as (q & Hq & Hs).
  apply same_key_Point_eq, Point_eq_iff in Hs as [Hx Hy].
  assert (Ex : x_min_max (in_points ++ [p]) = x_min_max in_points).
  { rewrite !x_min_max_by. apply (min_max_by_app_same _ in_points p q Hq Hx). }
  assert (Ey : y_min_max (in_points ++ [p]) = y_min_max in_points).
  { rewrite !y_min_max_by. apply (min_max_by_app_same _ in_points p q Hq Hy). }
  assert (Ec : _choose_barycenters (in_points ++ [p]) in_k draws
               = _choose_barycenters in_points in_k draws).
  { unfold _choose_barycenters. rewrite Ex, Ey. reflexivity. }
  split; [exact Ex|]. split; [exact Ey|]. split; [exact Ec|].
  unfold kmeans. rewrite Ec.
  destruct (_choose_barycenters in_points in_k draws) as [bs|e|]; cbn; try reflexivity.
  apply kmeans_loop_set_of, set_of_app_same, Hdup.
Qed.

Lemma kmeans_repeated_point_witness :
  let p := Point_init (Fin 0.04) (Fin 1) in
  (exists q, In q demo_points /\ same_key len_hash q p = true)
  /\ kmeans len_hash (set_of len_hash) demo_draws 5 (demo_points ++ [p]) 2
     = kmeans len_hash (set_of len_hash) demo_draws 5 demo_points 2.
Proof.
  intros p.
  assert (H : exists q, In q demo_points /\ same_key len_hash q p = true).
  { exists (Point_init (Fin 0) (Fin 1)). split; [right; left; reflexivity|].
    vm_compute. reflexivity. }
  split; [exact H|].
  exact (proj2 (proj2 (proj2 (kmeans_repeated_point len_hash (set_of len_hash) demo_draws 5
                                demo_points p 2 H)))).
Defined.

(** ** The loop of [kmeans] in binary64 *)

Section Loop64.

Variable hash : string -> Z.
Variable sum : list Binary64.float64 -> Binary64.float64.
Variable set_iter : list Point -> list Point.
Hypothesis set_iter_perm : forall l, Permutation (set_iter l) (set_of hash l).

Abbreviation same := (same_key hash).


Lemma assign_no_point64 (bs : list Point) :
  Binary64._assign_barycenters hash [] bs = Return [].
Proof. reflexivity. Qed.





End Loop64.



(** The points of the run [demo_points], from the barycenters that the
    draws [demo_draws] give: the loop returns the same partition in
    binary64 as in exact arithmetic. *)
Example kmeans_loop_binary64 :
  Binary64.kmeans_loop len_hash Binary64.sum_left (set_of len_hash) 5 demo_points
    [Point_init (Fin 2.5) (Fin 2.8); Point_init (Fin 7.5) (Fin 5.5)]
  = Return demo_partition.
Proof. vm_compute. reflexivity. Qed.
